(** * Inverse-kinematic arm: the circle-intersection primitive, the
      arm-angle solver and the mouse handler of [main.py].

    The two functions are embedded twice.

    - Over exact real arithmetic: Python floats are read as real numbers
      ([R]).  This is the reading of every statement below that says "over
      exact real arithmetic"; it is an idealisation of the program, and a
      statement proved in it says nothing about what rounding does.

    - Over IEEE binary64 ([Float64], on Rocq's primitive floats): the same
      control flow on the numbers Python computes with.  This embedding is
      the one that decides what the program does at a given input.

    In both, the exceptions the functions can raise ([math.sqrt] of a
    negative number, division by zero, tuple index out of range, and on
    floats an overflowing [**]) are kept as explicit outcomes, so that
    "never raises" is a statement about the model and not an assumption of
    it. *)

From Stdlib Require Import Reals Lra Lia List Bool Psatz.
From Stdlib Require PrimFloat.
Import ListNotations.

Open Scope R_scope.

(** ** Outcomes of a Python call *)

Inductive exn : Type :=
| ValueError
| ZeroDivisionError
| IndexError
| OverflowError.

(** [OutOfFuel] is not a Python outcome: it marks a [while] loop cut off by
    the model's iteration budget, and is shown unreachable below. *)
Inductive outcome (A : Type) : Type :=
| Ret (a : A)
| Raise (e : exn)
| OutOfFuel.

Arguments Ret {A} a.
Arguments Raise {A} e.
Arguments OutOfFuel {A}.

Definition bind {A B : Type} (c : outcome A) (k : A -> outcome B) : outcome B :=
  match c with
  | Ret a => k a
  | Raise e => Raise e
  | OutOfFuel => OutOfFuel
  end.

Notation "x <- c1 ;; c2" := (bind c1 (fun x => c2))
  (at level 61, c1 at next level, right associativity).
Notation "' p <- c1 ;; c2" := (bind c1 (fun x => match x with p => c2 end))
  (at level 61, p pattern, c1 at next level, right associativity).

(** ** The Python primitives the source uses *)

(** [math.sqrt]: raises [ValueError] on a negative argument. *)
Definition py_sqrt (v : R) : outcome R :=
  if Rlt_dec v 0 then Raise ValueError else Ret (sqrt v).

(** [a / b]: raises [ZeroDivisionError] when [b] is zero. *)
Definition py_div (a b : R) : outcome R :=
  if Req_dec_T b 0 then Raise ZeroDivisionError else Ret (a / b).

(** [t[i]] for a non-negative index: raises [IndexError] past the end. *)
Definition py_index (t : list R) (i : nat) : outcome R :=
  match nth_error t i with
  | Some v => Ret v
  | None => Raise IndexError
  end.

(** [a == b] on floats read as reals. *)
Definition Reqb (a b : R) : bool :=
  if Req_dec_T a b then true else false.

(** [sum(t)]: left-to-right accumulation from 0. *)
Definition py_sum (t : list R) : R := fold_left Rplus t 0.

(** [math.atan2(y, x)] on reals (no signed zeros): the angle in (-pi, pi] of
    the point (x, y), and 0 at the origin. *)
Definition atan2 (y x : R) : R :=
  if Rlt_dec 0 x then atan (y / x)
  else if Rlt_dec x 0 then
    (if Rle_dec 0 y then atan (y / x) + PI else atan (y / x) - PI)
  else if Rlt_dec 0 y then PI / 2
  else if Rlt_dec y 0 then - (PI / 2)
  else 0.

(** ** [circle_intersections] (main.py, lines 8-36), over exact real
    arithmetic *)

Definition circle_intersections (x0 y0 r0 x1 y1 r1 : R)
  : outcome (option (R * R * R * R)) :=
  d <- py_sqrt ((x1 - x0) ^ 2 + (y1 - y0) ^ 2) ;;
  (* non intersecting *)
  if Rgt_dec d (r0 + r1) then Ret None
  (* one circle within other *)
  else if Rlt_dec d (Rabs (r0 - r1)) then Ret None
  (* coincident circles *)
  else if Reqb d 0 && Reqb r0 r1 then Ret None
  else
    a <- py_div (r0 ^ 2 - r1 ^ 2 + d ^ 2) (2 * d) ;;
    h <- py_sqrt (r0 ^ 2 - a ^ 2) ;;
    ax <- py_div (a * (x1 - x0)) d ;;
    let x2 := x0 + ax in
    ay <- py_div (a * (y1 - y0)) d ;;
    let y2 := y0 + ay in
    hy <- py_div (h * (y1 - y0)) d ;;
    let x3 := x2 + hy in
    hx <- py_div (h * (x1 - x0)) d ;;
    let y3 := y2 - hx in
    hy' <- py_div (h * (y1 - y0)) d ;;
    let x4 := x2 - hy' in
    hx' <- py_div (h * (x1 - x0)) d ;;
    let y4 := y2 + hx' in
    Ret (Some (x3, y3, x4, y4)).

(** ** [get_arm_angles] (main.py, lines 39-100), over exact real
    arithmetic *)

(** The [while] loop of lines 69-72.  The state is
    [(arm_length_1, arm_length_3, second_arm_index)]; the condition reads
    [arm_lengths[second_arm_index]], the body reads it again and then
    [arm_lengths[second_arm_index + 1]]. *)
Fixpoint partition_loop (fuel : nat) (d : R) (arm_lengths : list R)
    (arm_length_1 arm_length_3 : R) (second_arm_index : nat)
  : outcome (R * R * nat) :=
  match fuel with
  | O => OutOfFuel
  | S fuel' =>
      cur <- py_index arm_lengths second_arm_index ;;
      if Rgt_dec arm_length_3 (d + arm_length_1 + cur) then
        inc <- py_index arm_lengths second_arm_index ;;
        let arm_length_1' := arm_length_1 + inc in
        dec <- py_index arm_lengths (S second_arm_index) ;;
        let arm_length_3' := arm_length_3 - dec in
        partition_loop fuel' d arm_lengths arm_length_1' arm_length_3'
          (S second_arm_index)
      else Ret (arm_length_1, arm_length_3, second_arm_index)
  end.

(** The loop either stops or raises within [len(arm_lengths)] iterations
    (each one advances the index, and the body indexes one past it), so this
    budget is never exhausted: see [partition_loop_spec]. *)
Definition loop_budget (arm_lengths : list R) : nat := S (length arm_lengths).

(** [[a] * n] is [repeat a n]; Python gives the empty list for a negative
    [n], which is what the truncated subtraction on [nat] gives as well. *)
Definition get_arm_angles (x y : R) (arm_lengths : list R)
  : outcome (option (list R)) :=
  d <- py_sqrt (x ^ 2 + y ^ 2) ;;
  if Rgt_dec d (py_sum arm_lengths) then Ret None
  else if Reqb d 0 then Ret None
  else
    (* final position *)
    let x3 := x in
    let y3 := y in
    (* angle of the first joint *)
    let angle_1 := atan2 (- y) (- x) in
    ' (arm_length_1, arm_length_3, second_arm_index) <-
      partition_loop (loop_budget arm_lengths) d arm_lengths
        0 (py_sum (skipn 1 arm_lengths)) 0 ;;
    arm_length_2 <- py_index arm_lengths second_arm_index ;;
    (* coordinates of the first joint *)
    scale_factor <- py_div (- arm_length_1) d ;;
    let x1 := x * scale_factor in
    let y1 := y * scale_factor in
    (* coordinates of the second joint *)
    intersection <- circle_intersections x1 y1 arm_length_2 x3 y3 arm_length_3 ;;
    match intersection with
    | None => Ret None
    | Some (x2, y2, _, _) =>
        let angle_2 := atan2 (y2 - y1) (x2 - x1) in
        let angle_3 := atan2 (y3 - y2) (x3 - x2) in
        Ret (Some ((repeat angle_1 second_arm_index ++ [angle_2])
                   ++ repeat angle_3
                        (length arm_lengths - second_arm_index - 1)))
    end.

(** ** The consumer's walk along the chain (spec, section 6)

    From a base point, each (angle, length) pair in order advances the
    current point by [length * (cos angle, sin angle)].  The pairs come from
    [zip], which stops at the shorter sequence.  (The renderer of [main]
    also rounds every step to whole pixels; the walk here is the exact
    one.) *)
Definition step (p : R * R) (al : R * R) : R * R :=
  (fst p + snd al * cos (fst al), snd p + snd al * sin (fst al)).

Definition walk (base : R * R) (angles arm_lengths : list R) : R * R :=
  fold_left step (combine angles arm_lengths) base.

(** ** Vocabulary of the statements *)

(** Distance between two points, as both functions compute it. *)
Definition dist (x0 y0 x1 y1 : R) : R :=
  sqrt ((x1 - x0) ^ 2 + (y1 - y0) ^ 2).

(** The three rejection guards of [circle_intersections], on the distance
    [d] between the centres. *)
Definition rejected (d r0 r1 : R) : Prop :=
  d > r0 + r1 \/ d < Rabs (r0 - r1) \/ (d = 0 /\ r0 = r1).

(** The chord offset and half-chord height of the success branch. *)
Definition chord_offset (d r0 r1 : R) : R :=
  (r0 ^ 2 - r1 ^ 2 + d ^ 2) / (2 * d).

Definition half_chord (d r0 r1 : R) : R :=
  sqrt (r0 ^ 2 - chord_offset d r0 r1 ^ 2).

(** The four numbers the success branch returns, in closed form. *)
Definition crossing (x0 y0 r0 x1 y1 r1 : R) : R * R * R * R :=
  let d := dist x0 y0 x1 y1 in
  let a := chord_offset d r0 r1 in
  let h := half_chord d r0 r1 in
  let x2 := x0 + a * (x1 - x0) / d in
  let y2 := y0 + a * (y1 - y0) / d in
  (x2 + h * (y1 - y0) / d, y2 - h * (x1 - x0) / d,
   x2 - h * (y1 - y0) / d, y2 + h * (x1 - x0) / d).

(** A point lies on the boundary of the circle of centre [(cx, cy)] and
    radius [r]. *)
Definition on_circle (cx cy r : R) (p : R * R) : Prop :=
  (fst p - cx) ^ 2 + (snd p - cy) ^ 2 = r ^ 2.

(** A point common to the boundaries of the two circles. *)
Definition common (x0 y0 r0 x1 y1 r1 : R) (p : R * R) : Prop :=
  on_circle x0 y0 r0 p /\ on_circle x1 y1 r1 p.

(** The two boundaries meet in exactly two distinct points. *)
Definition two_distinct_crossings (x0 y0 r0 x1 y1 r1 : R) : Prop :=
  exists p q : R * R,
    p <> q /\ common x0 y0 r0 x1 y1 r1 p /\ common x0 y0 r0 x1 y1 r1 q /\
    forall s : R * R, common x0 y0 r0 x1 y1 r1 s -> s = p \/ s = q.

(** The state of the partition loop at index [k]: the lead run is the
    first [k] segments and the trail run is everything after segment [k]. *)
Definition partitioned (arm_lengths : list R) (arm_length_1 arm_length_3 : R)
    (k : nat) : Prop :=
  (k < length arm_lengths)%nat /\
  arm_length_1 = py_sum (firstn k arm_lengths) /\
  arm_length_3 = py_sum (skipn (S k) arm_lengths).

(** The circle-intersection step inside [get_arm_angles] (lines 80-89)
    reports absence: the partition loop has produced the three sections,
    and the call on the first joint and the target returns [None]. *)
Definition intersection_absent (x y : R) (arm_lengths : list R) : Prop :=
  let d := sqrt (x ^ 2 + y ^ 2) in
  exists (arm_length_1 arm_length_3 arm_length_2 : R) (second_arm_index : nat),
    partition_loop (loop_budget arm_lengths) d arm_lengths
      0 (py_sum (skipn 1 arm_lengths)) 0
    = Ret (arm_length_1, arm_length_3, second_arm_index) /\
    py_index arm_lengths second_arm_index = Ret arm_length_2 /\
    circle_intersections (x * (- arm_length_1 / d)) (y * (- arm_length_1 / d))
      arm_length_2 x y arm_length_3 = Ret None.

(** Lines 88-100 of [get_arm_angles]: what is returned from the result of
    the circle-intersection call, given the first joint [(x1, y1)], the
    target [(x3, y3)], the number [n] of segments and the index [k] of the
    bending segment. *)
Definition angles_from (angle_1 x1 y1 x3 y3 : R) (n k : nat)
    (intersection : option (R * R * R * R)) : outcome (option (list R)) :=
  match intersection with
  | None => Ret None
  | Some (x2, y2, _, _) =>
      let angle_2 := atan2 (y2 - y1) (x2 - x1) in
      let angle_3 := atan2 (y3 - y2) (x3 - x2) in
      Ret (Some ((repeat angle_1 k ++ [angle_2])
                 ++ repeat angle_3 (n - k - 1)))
  end.

(** The number of places where a chain drawn with these angles bends: the
    joints at which two consecutive segments have different angles. *)
Fixpoint bends (angles : list R) : nat :=
  match angles with
  | a :: ((b :: _) as rest) =>
      ((if Req_dec_T a b then 0 else 1) + bends rest)%nat
  | _ => 0%nat
  end.

(** ** The renderer of [main] (main.py, lines 103-147)

    Angles, cosines, sines and the products [length * cos(angle)] are the
    exact real ones; coordinates are integers. *)

(** [int(v)] on a float read as a real: truncation toward zero. *)
Definition py_int (v : R) : Z :=
  if Rle_dec 0 v then Int_part v else (- Int_part (- v))%Z.

(** The four coordinates of a [shapes.Line] that the program sets. *)
Record Line : Type := mkLine {
  line_x : Z;
  line_y : Z;
  line_x2 : Z;
  line_y2 : Z
}.

(** The lines [main] creates (lines 112-123): one per segment, all starting
    at the window centre, at angle 0. *)
Definition initial_lines (width height : Z) (arm_lengths : list R)
  : list Line :=
  map (fun length =>
         let angle := 0 in
         mkLine (width / 2) (height / 2)
           (width / 2 + py_int (length * cos angle))
           (height / 2 + py_int (length * sin angle)))
      arm_lengths.

(** The [for] loop of [on_mouse_motion] (lines 139-145): [zip] stops at the
    shortest of the three sequences; each line it reaches gets its four
    coordinates set, and [(arm_x, arm_y)] moves to the end of that line.
    Lines past the end of [zip] are left as they were. *)
Fixpoint place_lines (arm_x arm_y : Z) (lines : list Line)
    (angles arm_lengths : list R) : list Line :=
  match lines, angles, arm_lengths with
  | _ :: lines', angle :: angles', length :: arm_lengths' =>
      let x2 := (arm_x + py_int (length * cos angle))%Z in
      let y2 := (arm_y + py_int (length * sin angle))%Z in
      mkLine arm_x arm_y x2 y2 :: place_lines x2 y2 lines' angles' arm_lengths'
  | _, _, _ => lines
  end.

(** [on_mouse_motion] (lines 131-145), with the variables it closes over
    ([width], [height], [arm_lengths]) as parameters and the list [lines] it
    mutates as explicit state: the result is the state of [lines] when the
    handler returns.  The mouse position is a pair of integers. *)
Definition on_mouse_motion (width height : Z) (arm_lengths : list R)
    (lines : list Line) (x y : Z) : outcome (list Line) :=
  angles <- get_arm_angles (IZR (x - width / 2)) (IZR (y - height / 2))
              arm_lengths ;;
  match angles with
  | None => Ret lines
  | Some angles =>
      Ret (place_lines (width / 2) (height / 2) lines angles arm_lengths)
  end.


(** ** The same two functions on IEEE binary64

    Every number is a Python float.  [math.atan2] is a library function,
    total on floats; it is a parameter of the solver.  The [while] loop has
    the same iteration budget as above.  [sum] is the plain left-to-right
    sum (Python 3.12 and later compensate the rounding of [sum] on floats;
    the two agree whenever no partial sum is rounded, so on sequences of at
    most one element and on small whole numbers, which is all the
    evaluations below use). *)
Module Float64.
Import PrimFloat.
Local Open Scope float_scope.

(** [math.sqrt]: [ValueError] on a negative argument; a NaN or a negative
    zero is passed through. *)
Definition py_sqrt (v : float) : outcome float :=
  if v <? 0 then Raise ValueError else Ret (PrimFloat.sqrt v).

(** [a / b]: [ZeroDivisionError] when [b] is a zero of either sign. *)
Definition py_div (a b : float) : outcome float :=
  if b =? 0 then Raise ZeroDivisionError else Ret (a / b).

(** [v ** 2]: the rounded square; [OverflowError] when a finite [v] has an
    infinite square. *)
Definition py_square (v : float) : outcome float :=
  let r := v * v in
  if is_infinity r && negb (is_infinity v) then Raise OverflowError
  else Ret r.

Definition py_index (t : list float) (i : nat) : outcome float :=
  match nth_error t i with
  | Some v => Ret v
  | None => Raise IndexError
  end.

Definition py_sum (t : list float) : float := fold_left add t 0.

(** [circle_intersections] (main.py, lines 8-36). *)
Definition circle_intersections (x0 y0 r0 x1 y1 r1 : float)
  : outcome (option (float * float * float * float)) :=
  dx2 <- py_square (x1 - x0) ;;
  dy2 <- py_square (y1 - y0) ;;
  d <- py_sqrt (dx2 + dy2) ;;
  (* non intersecting *)
  if r0 + r1 <? d then Ret None
  (* one circle within other *)
  else if d <? abs (r0 - r1) then Ret None
  (* coincident circles *)
  else if (d =? 0) && (r0 =? r1) then Ret None
  else
    r0_2 <- py_square r0 ;;
    r1_2 <- py_square r1 ;;
    d_2 <- py_square d ;;
    a <- py_div (r0_2 - r1_2 + d_2) (2 * d) ;;
    r0_2' <- py_square r0 ;;
    a_2 <- py_square a ;;
    h <- py_sqrt (r0_2' - a_2) ;;
    ax <- py_div (a * (x1 - x0)) d ;;
    let x2 := x0 + ax in
    ay <- py_div (a * (y1 - y0)) d ;;
    let y2 := y0 + ay in
    hy <- py_div (h * (y1 - y0)) d ;;
    let x3 := x2 + hy in
    hx <- py_div (h * (x1 - x0)) d ;;
    let y3 := y2 - hx in
    hy' <- py_div (h * (y1 - y0)) d ;;
    let x4 := x2 - hy' in
    hx' <- py_div (h * (x1 - x0)) d ;;
    let y4 := y2 + hx' in
    Ret (Some (x3, y3, x4, y4)).

(** The [while] loop of lines 69-72. *)
Fixpoint partition_loop (fuel : nat) (d : float) (arm_lengths : list float)
    (arm_length_1 arm_length_3 : float) (second_arm_index : nat)
  : outcome (float * float * nat) :=
  match fuel with
  | O => OutOfFuel
  | S fuel' =>
      cur <- py_index arm_lengths second_arm_index ;;
      if d + arm_length_1 + cur <? arm_length_3 then
        inc <- py_index arm_lengths second_arm_index ;;
        let arm_length_1' := arm_length_1 + inc in
        dec <- py_index arm_lengths (S second_arm_index) ;;
        let arm_length_3' := arm_length_3 - dec in
        partition_loop fuel' d arm_lengths arm_length_1' arm_length_3'
          (S second_arm_index)
      else Ret (arm_length_1, arm_length_3, second_arm_index)
  end.

Section Solver.
Variable atan2 : float -> float -> float.

(** [get_arm_angles] (main.py, lines 39-100). *)
Definition get_arm_angles (x y : float) (arm_lengths : list float)
  : outcome (option (list float)) :=
  x_2 <- py_square x ;;
  y_2 <- py_square y ;;
  d <- py_sqrt (x_2 + y_2) ;;
  if py_sum arm_lengths <? d then Ret None
  else if d =? 0 then Ret None
  else
    let x3 := x in
    let y3 := y in
    let angle_1 := atan2 (- y) (- x) in
    ' (arm_length_1, arm_length_3, second_arm_index) <-
      partition_loop (S (length arm_lengths)) d arm_lengths
        0 (py_sum (skipn 1 arm_lengths)) 0 ;;
    arm_length_2 <- py_index arm_lengths second_arm_index ;;
    scale_factor <- py_div (- arm_length_1) d ;;
    let x1 := x * scale_factor in
    let y1 := y * scale_factor in
    intersection <- circle_intersections x1 y1 arm_length_2 x3 y3 arm_length_3 ;;
    match intersection with
    | None => Ret None
    | Some (x2, y2, _, _) =>
        let angle_2 := atan2 (y2 - y1) (x2 - x1) in
        let angle_3 := atan2 (y3 - y2) (x3 - x2) in
        Ret (Some ((repeat angle_1 second_arm_index ++ [angle_2])
                   ++ repeat angle_3
                        (length arm_lengths - second_arm_index - 1)))
    end.
End Solver.

(** The floats nearest to 0.1, 0.2 and 0.05, as Python reads these
    literals. *)
Definition f0_1 : float := 0x1.999999999999ap-4.
Definition f0_2 : float := 0x1.999999999999ap-3.
Definition f0_05 : float := 0x1.999999999999ap-5.
End Float64.

(** ** The primitives, when they do not raise *)

Lemma py_sqrt_ret (v : R) : 0 <= v -> py_sqrt v = Ret (sqrt v).
Proof.
  intros Hv. unfold py_sqrt. destruct (Rlt_dec v 0); [lra | reflexivity].
Qed.

Lemma py_div_ret (a b : R) : b <> 0 -> py_div a b = Ret (a / b).
Proof.
  intros Hb. unfold py_div. destruct (Req_dec_T b 0); [contradiction | reflexivity].
Qed.

Lemma py_index_ret (t : list R) (i : nat) (v : R) :
  nth_error t i = Some v -> py_index t i = Ret v.
Proof. intros H. unfold py_index. now rewrite H. Qed.

Lemma Reqb_true (a b : R) : Reqb a b = true <-> a = b.
Proof.
  unfold Reqb. destruct (Req_dec_T a b); split; intros; congruence.
Qed.

Lemma Reqb_false (a b : R) : Reqb a b = false <-> a <> b.
Proof.
  unfold Reqb. destruct (Req_dec_T a b); split; intros; congruence.
Qed.

Lemma sum_squares_nonneg (u v : R) : 0 <= u ^ 2 + v ^ 2.
Proof. nra. Qed.

Lemma dist_nonneg (x0 y0 x1 y1 : R) : 0 <= dist x0 y0 x1 y1.
Proof. apply sqrt_pos. Qed.

Lemma dist_sqr (x0 y0 x1 y1 : R) :
  dist x0 y0 x1 y1 ^ 2 = (x1 - x0) ^ 2 + (y1 - y0) ^ 2.
Proof. unfold dist. apply pow2_sqrt, sum_squares_nonneg. Qed.

Lemma dist_sym (x0 y0 x1 y1 : R) : dist x0 y0 x1 y1 = dist x1 y1 x0 y0.
Proof. unfold dist. f_equal. ring. Qed.

(** ** Arithmetic of the success branch *)

Section Chord.
Variables d r0 r1 : R.
Hypothesis d_nonneg : 0 <= d.
Hypothesis accepted : ~ rejected d r0 r1.

Lemma accepted_le_sum : d <= r0 + r1.
Proof. unfold rejected in accepted. lra. Qed.

Lemma accepted_ge_diff : Rabs (r0 - r1) <= d.
Proof. unfold rejected in accepted. lra. Qed.

Lemma accepted_pos : 0 < d.
Proof.
  pose proof accepted_ge_diff as Hd.
  destruct (Req_dec_T d 0) as [E | N]; [| lra].
  exfalso. apply accepted. right; right. split; [exact E |].
  pose proof (Rabs_pos (r0 - r1)).
  assert (Rabs (r0 - r1) = 0) as Z by lra.
  unfold Rabs in Z. destruct (Rcase_abs (r0 - r1)); lra.
Qed.

Lemma chord_factor :
  r0 ^ 2 - chord_offset d r0 r1 ^ 2 =
  (r0 + r1 - d) * (d + r1 - r0) * (d + r0 - r1) * (d + r0 + r1) / (4 * d ^ 2).
Proof.
  pose proof accepted_pos. unfold chord_offset. field. lra.
Qed.

Lemma chord_nonneg : 0 <= r0 ^ 2 - chord_offset d r0 r1 ^ 2.
Proof.
  pose proof accepted_pos as Hp.
  pose proof accepted_le_sum as Hs.
  pose proof accepted_ge_diff as Hg.
  assert (r0 - r1 <= d /\ r1 - r0 <= d) as [Ha Hb].
  { unfold Rabs in Hg. destruct (Rcase_abs (r0 - r1)); lra. }
  rewrite chord_factor.
  apply Rmult_le_pos.
  - repeat apply Rmult_le_pos; lra.
  - left. apply Rinv_0_lt_compat. nra.
Qed.

Lemma half_chord_sqr :
  half_chord d r0 r1 ^ 2 = r0 ^ 2 - chord_offset d r0 r1 ^ 2.
Proof. unfold half_chord. apply pow2_sqrt, chord_nonneg. Qed.
End Chord.

(** ** What [circle_intersections] returns *)

Lemma circle_intersections_rejected (x0 y0 r0 x1 y1 r1 : R) :
  rejected (dist x0 y0 x1 y1) r0 r1 ->
  circle_intersections x0 y0 r0 x1 y1 r1 = Ret None.
Proof.
  intros Hrej. unfold circle_intersections.
  rewrite py_sqrt_ret by apply sum_squares_nonneg. cbn [bind].
  fold (dist x0 y0 x1 y1).
  destruct (Rgt_dec _ _); [reflexivity |].
  destruct (Rlt_dec _ _); [reflexivity |].
  destruct Hrej as [H | [H | [H1 H2]]]; [lra | lra |].
  apply Reqb_true in H1, H2. now rewrite H1, H2.
Qed.

Lemma circle_intersections_accepted (x0 y0 r0 x1 y1 r1 : R) :
  ~ rejected (dist x0 y0 x1 y1) r0 r1 ->
  circle_intersections x0 y0 r0 x1 y1 r1 =
  Ret (Some (crossing x0 y0 r0 x1 y1 r1)).
Proof.
  intros Hacc.
  pose proof (accepted_pos _ r0 r1 (dist_nonneg x0 y0 x1 y1) Hacc) as Hpos.
  pose proof (chord_nonneg _ r0 r1 (dist_nonneg x0 y0 x1 y1) Hacc) as Hch.
  unfold circle_intersections.
  rewrite py_sqrt_ret by apply sum_squares_nonneg. cbn [bind].
  fold (dist x0 y0 x1 y1).
  destruct (Rgt_dec _ _) as [G | _]; [exfalso; apply Hacc; now left |].
  destruct (Rlt_dec _ _) as [L | _]; [exfalso; apply Hacc; right; now left |].
  assert (Reqb (dist x0 y0 x1 y1) 0 = false) as -> by (apply Reqb_false; lra).
  cbn [andb].
  rewrite py_div_ret by lra. cbn [bind].
  fold (chord_offset (dist x0 y0 x1 y1) r0 r1).
  rewrite py_sqrt_ret by exact Hch. cbn [bind].
  fold (half_chord (dist x0 y0 x1 y1) r0 r1).
  rewrite !py_div_ret by lra. cbn [bind].
  reflexivity.
Qed.

Lemma rejected_dec (d r0 r1 : R) : {rejected d r0 r1} + {~ rejected d r0 r1}.
Proof.
  unfold rejected.
  destruct (Rgt_dec d (r0 + r1)); [left; tauto |].
  destruct (Rlt_dec d (Rabs (r0 - r1))); [left; tauto |].
  destruct (Req_dec_T d 0); [| right; tauto].
  destruct (Req_dec_T r0 r1); [left; tauto | right; tauto].
Qed.

(** X15. Over exact real arithmetic, [circle_intersections] returns the
    absence signal exactly when, for [d] the distance between the centres,
    [d > r0 + r1], or [d < |r0 - r1|], or [d = 0] and [r0 = r1]; in every
    other case it returns (without raising) one result made of two points.
    (On floats the last part fails: see [FloatFacts].) *)
Theorem circle_intersections_absence_iff (x0 y0 r0 x1 y1 r1 : R) :
  let d := dist x0 y0 x1 y1 in
  (circle_intersections x0 y0 r0 x1 y1 r1 = Ret None <->
   d > r0 + r1 \/ d < Rabs (r0 - r1) \/ (d = 0 /\ r0 = r1)) /\
  (~ (d > r0 + r1 \/ d < Rabs (r0 - r1) \/ (d = 0 /\ r0 = r1)) ->
   exists x3 y3 x4 y4 : R,
     circle_intersections x0 y0 r0 x1 y1 r1 = Ret (Some (x3, y3, x4, y4))).
Proof.
  intros d. subst d. fold (rejected (dist x0 y0 x1 y1) r0 r1). split.
  - split.
    + intros Hnone.
      destruct (rejected_dec (dist x0 y0 x1 y1) r0 r1) as [Hr | Ha]; [exact Hr |].
      rewrite (circle_intersections_accepted _ _ _ _ _ _ Ha) in Hnone.
      discriminate.
    + apply circle_intersections_rejected.
  - intros Ha. rewrite (circle_intersections_accepted _ _ _ _ _ _ Ha).
    destruct (crossing x0 y0 r0 x1 y1 r1) as [[[x3 y3] x4] y4].
    now exists x3, y3, x4, y4.
Qed.

(** C9. When none of the three guards holds, the distance is positive and
    [r0^2 >= a^2] for the chord offset [a]; so every division and the square
    root of the success branch are defined, and the call returns its two
    points without raising. *)
Theorem circle_intersections_success_defined (x0 y0 r0 x1 y1 r1 : R) :
  let d := dist x0 y0 x1 y1 in
  let a := (r0 ^ 2 - r1 ^ 2 + d ^ 2) / (2 * d) in
  d <= r0 + r1 -> d >= Rabs (r0 - r1) -> ~ (d = 0 /\ r0 = r1) ->
  d > 0 /\ r0 ^ 2 >= a ^ 2 /\
  (forall e : exn, circle_intersections x0 y0 r0 x1 y1 r1 <> Raise e) /\
  circle_intersections x0 y0 r0 x1 y1 r1 <> OutOfFuel /\
  circle_intersections x0 y0 r0 x1 y1 r1 =
    Ret (Some (crossing x0 y0 r0 x1 y1 r1)).
Proof.
  intros d a Hs Hg Hc.
  assert (~ rejected d r0 r1) as Hacc by (unfold rejected; lra).
  pose proof (accepted_pos d r0 r1 (dist_nonneg _ _ _ _) Hacc) as Hpos.
  pose proof (chord_nonneg d r0 r1 (dist_nonneg _ _ _ _) Hacc) as Hch.
  pose proof (circle_intersections_accepted _ _ _ _ _ _ Hacc) as Heq.
  fold (chord_offset d r0 r1) in a. subst a.
  repeat split; try lra.
  - intros e. rewrite Heq. discriminate.
  - rewrite Heq. discriminate.
  - exact Heq.
Qed.

Lemma circle_intersections_success_defined_witness :
  dist 0 0 2 0 > 0 /\
  1 ^ 2 >= ((1 ^ 2 - 1 ^ 2 + dist 0 0 2 0 ^ 2) / (2 * dist 0 0 2 0)) ^ 2 /\
  (forall e : exn, circle_intersections 0 0 1 2 0 1 <> Raise e) /\
  circle_intersections 0 0 1 2 0 1 <> OutOfFuel /\
  circle_intersections 0 0 1 2 0 1 = Ret (Some (crossing 0 0 1 2 0 1)).
Proof.
  assert (dist 0 0 2 0 = 2) as E.
  { unfold dist. replace ((2 - 0) ^ 2 + (0 - 0) ^ 2) with (2 ^ 2) by ring.
    apply sqrt_pow2. lra. }
  apply (circle_intersections_success_defined 0 0 1 2 0 1); cbv zeta; rewrite E.
  - lra.
  - replace (1 - 1) with 0 by ring. rewrite Rabs_R0. lra.
  - lra.
Defined.

(** ** Swapping the two circles *)

Lemma rejected_swap (d r0 r1 : R) : rejected d r0 r1 -> rejected d r1 r0.
Proof.
  unfold rejected. rewrite (Rabs_minus_sym r1 r0).
  intros [H | [H | [H1 H2]]]; [left; lra | right; left; exact H |].
  right; right. split; [exact H1 | now symmetry].
Qed.

Lemma chord_offset_swap (d r0 r1 : R) :
  d <> 0 -> chord_offset d r1 r0 = d - chord_offset d r0 r1.
Proof. intros Hd. unfold chord_offset. field. exact Hd. Qed.

Lemma half_chord_swap (d r0 r1 : R) :
  d <> 0 -> half_chord d r1 r0 = half_chord d r0 r1.
Proof.
  intros Hd. unfold half_chord. f_equal.
  rewrite chord_offset_swap by exact Hd. unfold chord_offset. field. exact Hd.
Qed.

Lemma crossing_swap (x0 y0 r0 x1 y1 r1 : R) :
  dist x0 y0 x1 y1 <> 0 ->
  crossing x1 y1 r1 x0 y0 r0 =
  let '(x3, y3, x4, y4) := crossing x0 y0 r0 x1 y1 r1 in (x4, y4, x3, y3).
Proof.
  intros Hd. unfold crossing. cbv zeta.
  rewrite (dist_sym x1 y1 x0 y0).
  pose proof (dist_sqr x0 y0 x1 y1) as Hsq.
  set (d := dist x0 y0 x1 y1) in *.
  rewrite (half_chord_swap d r0 r1 Hd), (chord_offset_swap d r0 r1 Hd).
  set (a := chord_offset d r0 r1). set (h := half_chord d r0 r1).
  f_equal; [f_equal; [f_equal |] |]; field; exact Hd.
Qed.

(** C8. When [circle_intersections] returns two points, the call with the
    two circles swapped returns two points as well, and they are the same
    unordered pair (in fact the same two points in the other order). *)
Theorem circle_intersections_swap (x0 y0 r0 x1 y1 r1 x3 y3 x4 y4 : R) :
  circle_intersections x0 y0 r0 x1 y1 r1 = Ret (Some (x3, y3, x4, y4)) ->
  exists x3' y3' x4' y4' : R,
    circle_intersections x1 y1 r1 x0 y0 r0 = Ret (Some (x3', y3', x4', y4')) /\
    (((x3', y3') = (x3, y3) /\ (x4', y4') = (x4, y4)) \/
     ((x3', y3') = (x4, y4) /\ (x4', y4') = (x3, y3))).
Proof.
  intros Hret.
  destruct (rejected_dec (dist x0 y0 x1 y1) r0 r1) as [Hr | Ha].
  { rewrite (circle_intersections_rejected _ _ _ _ _ _ Hr) in Hret. discriminate. }
  pose proof (accepted_pos _ r0 r1 (dist_nonneg _ _ _ _) Ha) as Hpos.
  rewrite (circle_intersections_accepted _ _ _ _ _ _ Ha) in Hret.
  assert (~ rejected (dist x1 y1 x0 y0) r1 r0) as Ha'.
  { intros Hr. apply Ha. rewrite dist_sym. now apply rejected_swap. }
  exists x4, y4, x3, y3. split; [| right; split; reflexivity].
  rewrite (circle_intersections_accepted _ _ _ _ _ _ Ha').
  rewrite crossing_swap by lra.
  assert (crossing x0 y0 r0 x1 y1 r1 = (x3, y3, x4, y4)) as Hc by congruence.
  now rewrite Hc.
Qed.

(** ** Evaluating the primitive from known values of [d], [a] and [h] *)

Lemma dist_eq (x0 y0 x1 y1 d : R) :
  0 <= d -> (x1 - x0) ^ 2 + (y1 - y0) ^ 2 = d ^ 2 -> dist x0 y0 x1 y1 = d.
Proof.
  intros Hd Hsq. unfold dist. rewrite Hsq. now apply sqrt_pow2.
Qed.

Lemma sqrt_eq (v h : R) : 0 <= h -> h ^ 2 = v -> sqrt v = h.
Proof. intros Hh <-. now apply sqrt_pow2. Qed.

Lemma Rabs_le_both (u d : R) : u <= d -> - u <= d -> Rabs u <= d.
Proof. intros H1 H2. unfold Rabs. destruct (Rcase_abs u); lra. Qed.

Lemma circle_intersections_eval (x0 y0 r0 x1 y1 r1 d a h : R) :
  0 < d -> (x1 - x0) ^ 2 + (y1 - y0) ^ 2 = d ^ 2 ->
  d <= r0 + r1 -> r0 - r1 <= d -> r1 - r0 <= d ->
  a = (r0 ^ 2 - r1 ^ 2 + d ^ 2) / (2 * d) ->
  0 <= h -> h ^ 2 = r0 ^ 2 - a ^ 2 ->
  circle_intersections x0 y0 r0 x1 y1 r1 =
  Ret (Some (x0 + a * (x1 - x0) / d + h * (y1 - y0) / d,
             y0 + a * (y1 - y0) / d - h * (x1 - x0) / d,
             x0 + a * (x1 - x0) / d - h * (y1 - y0) / d,
             y0 + a * (y1 - y0) / d + h * (x1 - x0) / d)).
Proof.
  intros Hd Hsq Hs H1 H2 Ha Hh Hh2.
  assert (dist x0 y0 x1 y1 = d) as Ed by (apply dist_eq; lra).
  assert (~ rejected (dist x0 y0 x1 y1) r0 r1) as Hacc.
  { rewrite Ed. unfold rejected.
    pose proof (Rabs_le_both (r0 - r1) d). lra. }
  rewrite (circle_intersections_accepted _ _ _ _ _ _ Hacc).
  unfold crossing. cbv zeta. rewrite Ed.
  assert (chord_offset d r0 r1 = a) as -> by (now rewrite Ha).
  assert (half_chord d r0 r1 = h) as ->.
  { unfold half_chord. apply sqrt_eq; [exact Hh |].
    assert (chord_offset d r0 r1 = a) as -> by (now rewrite Ha). exact Hh2. }
  reflexivity.
Qed.

(** Two circles of radius 5 whose centres are 6 apart cross at (3, -4) and
    (3, 4). *)
Lemma circle_intersections_crossing_example :
  circle_intersections 0 0 5 6 0 5 = Ret (Some (3, -4, 3, 4)).
Proof.
  rewrite (circle_intersections_eval 0 0 5 6 0 5 6 3 4) by lra.
  repeat f_equal; lra.
Qed.

(** Two circles of radius 1 whose centres are 2 apart touch at (1, 0); the
    call returns that point twice. *)
Lemma circle_intersections_tangent_example :
  circle_intersections 0 0 1 2 0 1 = Ret (Some (1, 0, 1, 0)).
Proof.
  rewrite (circle_intersections_eval 0 0 1 2 0 1 2 1 0) by lra.
  repeat f_equal; lra.
Qed.

(** Scenario D of the spec: the same circle twice. *)
Lemma circle_intersections_coincident_example :
  circle_intersections 0 0 5 0 0 5 = Ret None.
Proof.
  apply circle_intersections_rejected. right; right. split; [| reflexivity].
  apply dist_eq; lra.
Qed.

Lemma circle_intersections_swap_witness :
  exists x3' y3' x4' y4' : R,
    circle_intersections 6 0 5 0 0 5 = Ret (Some (x3', y3', x4', y4')) /\
    (((x3', y3') = (3, -4) /\ (x4', y4') = (3, 4)) \/
     ((x3', y3') = (3, 4) /\ (x4', y4') = (3, -4))).
Proof.
  apply (circle_intersections_swap 0 0 5 6 0 5 3 (-4) 3 4).
  exact circle_intersections_crossing_example.
Defined.

Lemma circle_intersections_absence_iff_witness :
  exists x3 y3 x4 y4 : R,
    circle_intersections 0 0 5 6 0 5 = Ret (Some (x3, y3, x4, y4)).
Proof.
  apply (proj2 (circle_intersections_absence_iff 0 0 5 6 0 5)).
  assert (dist 0 0 6 0 = 6) as -> by (apply dist_eq; lra).
  replace (5 - 5) with 0 by ring. rewrite Rabs_R0. lra.
Defined.

(** ** The returned points and the common points of the two circles *)

Lemma chord_factor_nonzero (d r0 r1 : R) :
  d <> 0 ->
  r0 ^ 2 - chord_offset d r0 r1 ^ 2 =
  (r0 + r1 - d) * (d + r1 - r0) * (d + r0 - r1) * (d + r0 + r1) / (4 * d ^ 2).
Proof. intros Hd. unfold chord_offset. field. exact Hd. Qed.

Lemma pow2_eq_0 (u : R) : u ^ 2 = 0 -> u = 0.
Proof.
  intros H. apply Rsqr_0_uniq. unfold Rsqr.
  replace (u * u) with (u ^ 2) by ring. exact H.
Qed.

Lemma dist_zero_centres (x0 y0 x1 y1 : R) :
  dist x0 y0 x1 y1 = 0 -> x1 = x0 /\ y1 = y0.
Proof.
  intros Hd. pose proof (dist_sqr x0 y0 x1 y1) as Hsq. rewrite Hd in Hsq.
  pose proof (pow2_ge_0 (x1 - x0)) as Hx.
  pose proof (pow2_ge_0 (y1 - y0)) as Hy.
  assert ((x1 - x0) ^ 2 = 0) as Zx by lra.
  assert ((y1 - y0) ^ 2 = 0) as Zy by lra.
  apply pow2_eq_0 in Zx, Zy. split; lra.
Qed.

Section Crossing.
Variables x0 y0 r0 x1 y1 r1 : R.
Let d := dist x0 y0 x1 y1.
Let a := chord_offset d r0 r1.
Let h := half_chord d r0 r1.
Let ex := (x1 - x0) / d.
Let ey := (y1 - y0) / d.
Hypothesis d_pos : 0 < d.

Lemma unit_direction : ex ^ 2 + ey ^ 2 = 1.
Proof.
  pose proof (dist_sqr x0 y0 x1 y1) as Hsq. fold d in Hsq.
  unfold ex, ey.
  replace (((x1 - x0) / d) ^ 2 + ((y1 - y0) / d) ^ 2)
    with (((x1 - x0) ^ 2 + (y1 - y0) ^ 2) / d ^ 2) by (field; lra).
  rewrite <- Hsq. field. lra.
Qed.

Lemma centre_offset : x1 - x0 = d * ex /\ y1 - y0 = d * ey.
Proof. unfold ex, ey. split; field; lra. Qed.

Lemma chord_offset_twice : 2 * d * a = r0 ^ 2 - r1 ^ 2 + d ^ 2.
Proof. unfold a, chord_offset. field. lra. Qed.

(** Every common point sits at offset [a] along the line of centres and
    at a signed height whose square is [r0^2 - a^2]. *)
Lemma common_point_coordinates (sx sy : R) :
  common x0 y0 r0 x1 y1 r1 (sx, sy) ->
  exists b : R,
    b ^ 2 = r0 ^ 2 - a ^ 2 /\
    sx = x0 + a * (x1 - x0) / d + b * (y1 - y0) / d /\
    sy = y0 + a * (y1 - y0) / d - b * (x1 - x0) / d.
Proof.
  intros [H0 H1]. unfold on_circle in H0, H1. cbn [fst snd] in H0, H1.
  destruct centre_offset as [Hx Hy]. pose proof unit_direction as Hu.
  pose proof chord_offset_twice as Ha.
  set (u := sx - x0) in *. set (v := sy - y0) in *.
  assert (sx - x1 = u - d * ex) as Eu by (unfold u; lra).
  assert (sy - y1 = v - d * ey) as Ev by (unfold v; lra).
  rewrite Eu, Ev in H1.
  assert (a = u * ex + v * ey) as Ea.
  { apply Rmult_eq_reg_l with (2 * d); [| lra].
    replace (2 * d * a) with (r0 ^ 2 - r1 ^ 2 + d ^ 2) by lra.
    rewrite <- H0, <- H1.
    replace ((u - d * ex) ^ 2 + (v - d * ey) ^ 2)
      with (u ^ 2 + v ^ 2 - 2 * d * (u * ex + v * ey)
            + d ^ 2 * (ex ^ 2 + ey ^ 2)) by ring.
    rewrite Hu. ring. }
  exists (u * ey - v * ex). split; [| split].
  - rewrite Ea, <- H0.
    replace (u ^ 2 + v ^ 2) with ((u ^ 2 + v ^ 2) * (ex ^ 2 + ey ^ 2))
      by (rewrite Hu; ring).
    ring.
  - rewrite Hx, Hy.
    replace (x0 + a * (d * ex) / d + (u * ey - v * ex) * (d * ey) / d)
      with (x0 + a * ex + (u * ey - v * ex) * ey) by (field; lra).
    rewrite Ea.
    replace (x0 + (u * ex + v * ey) * ex + (u * ey - v * ex) * ey)
      with (x0 + u * (ex ^ 2 + ey ^ 2)) by ring.
    rewrite Hu. unfold u. ring.
  - rewrite Hx, Hy.
    replace (y0 + a * (d * ey) / d - (u * ey - v * ex) * (d * ex) / d)
      with (y0 + a * ey - (u * ey - v * ex) * ex) by (field; lra).
    rewrite Ea.
    replace (y0 + (u * ex + v * ey) * ey - (u * ey - v * ex) * ex)
      with (y0 + v * (ex ^ 2 + ey ^ 2)) by ring.
    rewrite Hu. unfold v. ring.
Qed.

(** A point built from offset [a] and a height [b] with
    [b^2 = r0^2 - a^2] is common to the two circles. *)
Lemma built_point_common (b : R) :
  b ^ 2 = r0 ^ 2 - a ^ 2 ->
  common x0 y0 r0 x1 y1 r1
    (x0 + a * (x1 - x0) / d + b * (y1 - y0) / d,
     y0 + a * (y1 - y0) / d - b * (x1 - x0) / d).
Proof.
  intros Hb.
  destruct centre_offset as [Hx Hy]. pose proof unit_direction as Hu.
  pose proof chord_offset_twice as Ha.
  unfold common, on_circle. cbn [fst snd].
  assert (x0 + a * (x1 - x0) / d + b * (y1 - y0) / d = x0 + a * ex + b * ey)
    as -> by (unfold ex, ey; field; lra).
  assert (y0 + a * (y1 - y0) / d - b * (x1 - x0) / d = y0 + a * ey - b * ex)
    as -> by (unfold ex, ey; field; lra).
  split.
  - replace ((x0 + a * ex + b * ey - x0) ^ 2 + (y0 + a * ey - b * ex - y0) ^ 2)
      with ((a ^ 2 + b ^ 2) * (ex ^ 2 + ey ^ 2)) by ring.
    rewrite Hu, Hb. ring.
  - replace (x0 + a * ex + b * ey - x1) with ((a - d) * ex + b * ey) by lra.
    replace (y0 + a * ey - b * ex - y1) with ((a - d) * ey - b * ex) by lra.
    replace (((a - d) * ex + b * ey) ^ 2 + ((a - d) * ey - b * ex) ^ 2)
      with (((a - d) ^ 2 + b ^ 2) * (ex ^ 2 + ey ^ 2)) by ring.
    rewrite Hu, Hb. nra.
Qed.

(** If the circles (of non-negative radii) have a common point, no guard
    rejects them. *)
Lemma common_point_accepted (s : R * R) :
  0 <= r0 -> 0 <= r1 ->
  common x0 y0 r0 x1 y1 r1 s -> ~ rejected d r0 r1.
Proof.
  intros Hr0 Hr1 Hs. destruct s as [sx sy].
  destruct (common_point_coordinates sx sy Hs) as (b & Hb & _).
  assert (0 <= r0 ^ 2 - a ^ 2) as Hch by (rewrite <- Hb; nra).
  unfold a in Hch. rewrite chord_factor_nonzero in Hch by lra.
  assert (0 <= (r0 + r1 - d) * (d + r1 - r0) * (d + r0 - r1) * (d + r0 + r1))
    as Hp.
  { apply Rmult_le_reg_r with (/ (4 * d ^ 2)).
    - apply Rinv_0_lt_compat. nra.
    - rewrite Rmult_0_l. exact Hch. }
  unfold rejected. intros [H | [H | [H _]]]; [| | lra].
  - assert (0 < (d - r0 - r1) * ((d + r1 - r0) * (d + r0 - r1) * (d + r0 + r1))).
    { apply Rmult_lt_0_compat; [lra |].
      repeat apply Rmult_lt_0_compat; lra. }
    nra.
  - unfold Rabs in H. destruct (Rcase_abs (r0 - r1)).
    + assert (0 < (r0 + r1 - d) * ((r1 - r0 - d) * (d + r1 - r0) * (d + r0 + r1))).
      { apply Rmult_lt_0_compat; [lra |].
        repeat apply Rmult_lt_0_compat; lra. }
      nra.
    + assert (0 < (r0 + r1 - d) * ((r0 - r1 - d) * (d + r0 - r1) * (d + r0 + r1))).
      { apply Rmult_lt_0_compat; [lra |].
        repeat apply Rmult_lt_0_compat; lra. }
      nra.
Qed.
End Crossing.

Lemma crossing_common (x0 y0 r0 x1 y1 r1 x3 y3 x4 y4 : R) :
  ~ rejected (dist x0 y0 x1 y1) r0 r1 ->
  crossing x0 y0 r0 x1 y1 r1 = (x3, y3, x4, y4) ->
  common x0 y0 r0 x1 y1 r1 (x3, y3) /\ common x0 y0 r0 x1 y1 r1 (x4, y4).
Proof.
  intros Hacc Hc.
  pose proof (accepted_pos _ r0 r1 (dist_nonneg _ _ _ _) Hacc) as Hpos.
  pose proof (half_chord_sqr _ r0 r1 (dist_nonneg _ _ _ _) Hacc) as Hh.
  unfold crossing in Hc. cbv zeta in Hc.
  set (d := dist x0 y0 x1 y1) in *.
  set (a := chord_offset d r0 r1) in *. set (h := half_chord d r0 r1) in *.
  assert ((- h) ^ 2 = r0 ^ 2 - a ^ 2) as Hm by (rewrite <- Hh; ring).
  pose proof (built_point_common x0 y0 r0 x1 y1 r1 Hpos h Hh) as H3.
  pose proof (built_point_common x0 y0 r0 x1 y1 r1 Hpos (- h) Hm) as H4.
  fold d in H3, H4. fold a in H3, H4.
  injection Hc as E3x E3y E4x E4y. subst x3 y3 x4 y4. split; [exact H3 |].
  replace (x0 + a * (x1 - x0) / d - h * (y1 - y0) / d)
    with (x0 + a * (x1 - x0) / d + - h * (y1 - y0) / d) by (field; lra).
  replace (y0 + a * (y1 - y0) / d + h * (x1 - x0) / d)
    with (y0 + a * (y1 - y0) / d - - h * (x1 - x0) / d) by (field; lra).
  exact H4.
Qed.

Lemma crossing_complete (x0 y0 r0 x1 y1 r1 x3 y3 x4 y4 : R) (s : R * R) :
  ~ rejected (dist x0 y0 x1 y1) r0 r1 ->
  crossing x0 y0 r0 x1 y1 r1 = (x3, y3, x4, y4) ->
  common x0 y0 r0 x1 y1 r1 s -> s = (x3, y3) \/ s = (x4, y4).
Proof.
  intros Hacc Hc Hs. destruct s as [sx sy].
  pose proof (accepted_pos _ r0 r1 (dist_nonneg _ _ _ _) Hacc) as Hpos.
  pose proof (half_chord_sqr _ r0 r1 (dist_nonneg _ _ _ _) Hacc) as Hh.
  destruct (common_point_coordinates x0 y0 r0 x1 y1 r1 Hpos sx sy Hs)
    as (b & Hb & Ex & Ey).
  unfold crossing in Hc. cbv zeta in Hc.
  set (d := dist x0 y0 x1 y1) in *.
  set (a := chord_offset d r0 r1) in *. set (h := half_chord d r0 r1) in *.
  injection Hc as E3x E3y E4x E4y. subst x3 y3 x4 y4.
  assert ((b - h) * (b + h) = 0) as Hz by (ring_simplify; lra).
  apply Rmult_integral in Hz. destruct Hz as [Hz | Hz].
  - left. assert (b = h) as -> by lra. now rewrite Ex, Ey.
  - right. assert (b = - h) as -> by lra. rewrite Ex, Ey.
    f_equal; field; lra.
Qed.

Lemma crossing_distinct_iff (x0 y0 r0 x1 y1 r1 x3 y3 x4 y4 : R) :
  0 <= r0 -> 0 <= r1 ->
  ~ rejected (dist x0 y0 x1 y1) r0 r1 ->
  crossing x0 y0 r0 x1 y1 r1 = (x3, y3, x4, y4) ->
  (x3, y3) <> (x4, y4) <->
  Rabs (r0 - r1) < dist x0 y0 x1 y1 < r0 + r1.
Proof.
  intros Hr0 Hr1 Hacc Hc.
  pose proof (accepted_pos _ r0 r1 (dist_nonneg _ _ _ _) Hacc) as Hpos.
  pose proof (accepted_le_sum _ r0 r1 (dist_nonneg _ _ _ _) Hacc) as Hs.
  pose proof (accepted_ge_diff _ r0 r1 (dist_nonneg _ _ _ _) Hacc) as Hg.
  pose proof (half_chord_sqr _ r0 r1 (dist_nonneg _ _ _ _) Hacc) as Hh.
  pose proof (unit_direction x0 y0 x1 y1 Hpos) as Hu.
  rewrite chord_factor_nonzero in Hh by lra.
  unfold crossing in Hc. cbv zeta in Hc.
  set (d := dist x0 y0 x1 y1) in *.
  set (a := chord_offset d r0 r1) in *. set (h := half_chord d r0 r1) in *.
  set (ex := (x1 - x0) / d) in *. set (ey := (y1 - y0) / d) in *.
  injection Hc as E3x E3y E4x E4y.
  assert (x3 - x4 = 2 * (h * ey)) as Dx
    by (subst x3 x4; unfold ey; field; lra).
  assert (y4 - y3 = 2 * (h * ex)) as Dy
    by (subst y3 y4; unfold ex; field; lra).
  assert (r0 - r1 <= d /\ r1 - r0 <= d) as [Ha Hb].
  { unfold Rabs in Hg. destruct (Rcase_abs (r0 - r1)); lra. }
  assert (4 * d ^ 2 * h ^ 2 =
          (r0 + r1 - d) * (d + r1 - r0) * (d + r0 - r1) * (d + r0 + r1)) as Hp.
  { rewrite Hh. field. lra. }
  split.
  - intros Hne.
    assert (h <> 0) as Hh0.
    { intros Z. apply Hne. f_equal; [| symmetry]; rewrite Z in *; lra. }
    assert (0 < h ^ 2) as Hh2.
    { pose proof (pow2_ge_0 h).
      destruct (Req_dec_T (h ^ 2) 0) as [Z | N]; [| lra].
      apply pow2_eq_0 in Z. contradiction. }
    assert (0 < 4 * d ^ 2 * h ^ 2) as Hq.
    { apply Rmult_lt_0_compat; [nra | exact Hh2]. }
    rewrite Hp in Hq.
    assert (r0 + r1 - d <> 0) as N1 by (intros Z; rewrite Z in Hq; lra).
    assert (d + r1 - r0 <> 0) as N2.
    { intros Z. rewrite Z in Hq. rewrite Rmult_0_r, !Rmult_0_l in Hq. lra. }
    assert (d + r0 - r1 <> 0) as N3.
    { intros Z. rewrite Z in Hq. rewrite Rmult_0_r, Rmult_0_l in Hq. lra. }
    split; [| lra].
    unfold Rabs. destruct (Rcase_abs (r0 - r1)); lra.
  - intros [Hlo Hhi] Heq.
    assert (r0 - r1 < d /\ r1 - r0 < d) as [Ha' Hb'].
    { unfold Rabs in Hlo. destruct (Rcase_abs (r0 - r1)); lra. }
    assert (0 < (r0 + r1 - d) * (d + r1 - r0) * (d + r0 - r1) * (d + r0 + r1))
      as Hq by (repeat apply Rmult_lt_0_compat; lra).
    rewrite <- Hp in Hq.
    injection Heq as Ex Ey.
    assert (h * ey = 0) as Z1 by lra. assert (h * ex = 0) as Z2 by lra.
    assert (h ^ 2 = h ^ 2 * (ex ^ 2 + ey ^ 2)) as Hh1 by (rewrite Hu; ring).
    assert (h ^ 2 = 0) as Z.
    { rewrite Hh1.
      replace (h ^ 2 * (ex ^ 2 + ey ^ 2)) with ((h * ex) ^ 2 + (h * ey) ^ 2) by ring.
      rewrite Z1, Z2. ring. }
    rewrite Z in Hq. lra.
Qed.

Lemma tangent_single_point (s : R * R) :
  common 0 0 1 2 0 1 s -> s = (1, 0).
Proof.
  destruct s as [sx sy]. unfold common, on_circle. cbn [fst snd].
  intros [H0 H1].
  assert (sx = 1) as -> by nra.
  assert (sy ^ 2 = 0) as Z by nra.
  apply pow2_eq_0 in Z. now subst sy.
Qed.

(** C6, as stated, fails at tangency: for the circles of radius 1 centred at
    (0, 0) and (2, 0) the call returns a result (the point (1, 0) twice),
    although the boundaries do not meet in two distinct points. *)
Lemma circle_intersections_tangent_not_two_points :
  circle_intersections 0 0 1 2 0 1 = Ret (Some (1, 0, 1, 0)) /\
  ~ two_distinct_crossings 0 0 1 2 0 1 /\
  ~ (circle_intersections 0 0 1 2 0 1 = Ret None <->
     ~ two_distinct_crossings 0 0 1 2 0 1).
Proof.
  assert (~ two_distinct_crossings 0 0 1 2 0 1) as Hn.
  { intros (p & q & Hne & Hp & Hq & _).
    apply tangent_single_point in Hp, Hq. congruence. }
  split; [exact circle_intersections_tangent_example |].
  split; [exact Hn |].
  intros [_ Hback]. specialize (Hback Hn).
  rewrite circle_intersections_tangent_example in Hback. discriminate.
Qed.

(** At tangency, with distinct centres, the call returns, and returns one
    point twice. *)
Lemma circle_intersections_tangent (x0 y0 r0 x1 y1 r1 : R) :
  0 <= r0 -> 0 <= r1 ->
  0 < dist x0 y0 x1 y1 ->
  dist x0 y0 x1 y1 = r0 + r1 \/ dist x0 y0 x1 y1 = Rabs (r0 - r1) ->
  exists px py : R,
    circle_intersections x0 y0 r0 x1 y1 r1 = Ret (Some (px, py, px, py)).
Proof.
  intros Hr0 Hr1 Hpos Htan.
  pose proof (Rabs_le_both (r0 - r1) (r0 + r1) ltac:(lra) ltac:(lra)) as Hab.
  pose proof (Rabs_pos (r0 - r1)) as Hap.
  assert (~ rejected (dist x0 y0 x1 y1) r0 r1) as Ha.
  { unfold rejected. intros [H | [H | [H _]]]; destruct Htan; lra. }
  rewrite (circle_intersections_accepted _ _ _ _ _ _ Ha).
  destruct (crossing x0 y0 r0 x1 y1 r1) as [[[x3 y3] x4] y4] eqn:Hc.
  pose proof (crossing_distinct_iff _ _ _ _ _ _ _ _ _ _ Hr0 Hr1 Ha Hc) as Hiff.
  assert ((x3, y3) = (x4, y4)) as E.
  { destruct (Req_dec_T x3 x4) as [Ex | Nx].
    - destruct (Req_dec_T y3 y4) as [Ey | Ny]; [congruence |].
      exfalso. assert ((x3, y3) <> (x4, y4)) as Hne by congruence.
      apply Hiff in Hne. destruct Htan; lra.
    - exfalso. assert ((x3, y3) <> (x4, y4)) as Hne by congruence.
      apply Hiff in Hne. destruct Htan; lra. }
  injection E as <- <-. now exists x3, y3.
Qed.

(** C6, amended.  Over exact real arithmetic, for circles of non-negative
    radii: [circle_intersections] returns the absence signal exactly when
    the two boundaries have no common point or the two circles are the same
    circle.  Whenever it returns a result, the two returned points lie on
    both boundaries and are all their common points; they are distinct
    exactly when [|r0 - r1| < d < r0 + r1].  At tangency ([d = r0 + r1] or
    [d = |r0 - r1|], with [d > 0]) it returns a result: the single common
    point, twice. *)
Theorem circle_intersections_common_points (x0 y0 r0 x1 y1 r1 : R) :
  0 <= r0 -> 0 <= r1 ->
  (circle_intersections x0 y0 r0 x1 y1 r1 = Ret None <->
   (forall s : R * R, ~ common x0 y0 r0 x1 y1 r1 s) \/
   (x1 = x0 /\ y1 = y0 /\ r0 = r1)) /\
  (forall x3 y3 x4 y4 : R,
     circle_intersections x0 y0 r0 x1 y1 r1 = Ret (Some (x3, y3, x4, y4)) ->
     common x0 y0 r0 x1 y1 r1 (x3, y3) /\
     common x0 y0 r0 x1 y1 r1 (x4, y4) /\
     (forall s : R * R,
        common x0 y0 r0 x1 y1 r1 s -> s = (x3, y3) \/ s = (x4, y4)) /\
     ((x3, y3) <> (x4, y4) <->
      Rabs (r0 - r1) < dist x0 y0 x1 y1 < r0 + r1)) /\
  (0 < dist x0 y0 x1 y1 ->
   dist x0 y0 x1 y1 = r0 + r1 \/ dist x0 y0 x1 y1 = Rabs (r0 - r1) ->
   exists px py : R,
     circle_intersections x0 y0 r0 x1 y1 r1 = Ret (Some (px, py, px, py)) /\
     common x0 y0 r0 x1 y1 r1 (px, py)).
Proof.
  intros Hr0 Hr1. split; [| split].
  - split.
    + intros Hnone.
      destruct (rejected_dec (dist x0 y0 x1 y1) r0 r1) as [Hr | Ha].
      2:{ rewrite (circle_intersections_accepted _ _ _ _ _ _ Ha) in Hnone.
          discriminate. }
      pose proof (dist_nonneg x0 y0 x1 y1) as Hd.
      destruct (Req_dec_T (dist x0 y0 x1 y1) 0) as [Z | N].
      * destruct (dist_zero_centres _ _ _ _ Z) as [Ex Ey].
        destruct (Req_dec_T r0 r1) as [Er | Nr]; [right; tauto |].
        left. intros [sx sy] [H0 H1]. unfold on_circle in H0, H1.
        cbn [fst snd] in H0, H1. subst x1 y1. apply Nr.
        assert ((r0 - r1) * (r0 + r1) = 0) as Hz by (ring_simplify; lra).
        apply Rmult_integral in Hz. destruct Hz; [lra |].
        assert (r0 = 0) by lra. assert (r1 = 0) by lra. lra.
      * left. intros s Hs.
        assert (0 < dist x0 y0 x1 y1) as Hpos by lra.
        exact (common_point_accepted x0 y0 r0 x1 y1 r1 Hpos s Hr0 Hr1 Hs Hr).
    + intros [Hno | (Ex & Ey & Er)].
      * destruct (rejected_dec (dist x0 y0 x1 y1) r0 r1) as [Hr | Ha].
        { now apply circle_intersections_rejected. }
        exfalso.
        destruct (crossing x0 y0 r0 x1 y1 r1) as [[[x3 y3] x4] y4] eqn:Hc.
        destruct (crossing_common _ _ _ _ _ _ _ _ _ _ Ha Hc) as [H3 _].
        exact (Hno _ H3).
      * apply circle_intersections_rejected. right; right. split; [| exact Er].
        subst x1 y1. apply dist_eq; lra.
  - intros x3 y3 x4 y4 Hret.
    destruct (rejected_dec (dist x0 y0 x1 y1) r0 r1) as [Hr | Ha].
    { rewrite (circle_intersections_rejected _ _ _ _ _ _ Hr) in Hret.
      discriminate. }
    rewrite (circle_intersections_accepted _ _ _ _ _ _ Ha) in Hret.
    assert (crossing x0 y0 r0 x1 y1 r1 = (x3, y3, x4, y4)) as Hc by congruence.
    destruct (crossing_common _ _ _ _ _ _ _ _ _ _ Ha Hc) as [H3 H4].
    split; [exact H3 |]. split; [exact H4 |]. split.
    + intros s Hs. exact (crossing_complete _ _ _ _ _ _ _ _ _ _ s Ha Hc Hs).
    + exact (crossing_distinct_iff _ _ _ _ _ _ _ _ _ _ Hr0 Hr1 Ha Hc).
  - intros Hpos Htan.
    destruct (circle_intersections_tangent _ _ _ _ _ _ Hr0 Hr1 Hpos Htan)
      as (px & py & E).
    exists px, py. split; [exact E |].
    destruct (rejected_dec (dist x0 y0 x1 y1) r0 r1) as [Hr | Ha].
    { rewrite (circle_intersections_rejected _ _ _ _ _ _ Hr) in E.
      discriminate. }
    rewrite (circle_intersections_accepted _ _ _ _ _ _ Ha) in E.
    assert (crossing x0 y0 r0 x1 y1 r1 = (px, py, px, py)) as Hc by congruence.
    exact (proj1 (crossing_common _ _ _ _ _ _ _ _ _ _ Ha Hc)).
Qed.

Lemma circle_intersections_common_points_witness :
  (circle_intersections 0 0 1 2 0 1 = Ret None <->
   (forall s : R * R, ~ common 0 0 1 2 0 1 s) \/
   (2 = 0 /\ 0 = 0 /\ 1 = 1)) /\
  (forall x3 y3 x4 y4 : R,
     circle_intersections 0 0 1 2 0 1 = Ret (Some (x3, y3, x4, y4)) ->
     common 0 0 1 2 0 1 (x3, y3) /\
     common 0 0 1 2 0 1 (x4, y4) /\
     (forall s : R * R,
        common 0 0 1 2 0 1 s -> s = (x3, y3) \/ s = (x4, y4)) /\
     ((x3, y3) <> (x4, y4) <-> Rabs (1 - 1) < dist 0 0 2 0 < 1 + 1)) /\
  (0 < dist 0 0 2 0 ->
   dist 0 0 2 0 = 1 + 1 \/ dist 0 0 2 0 = Rabs (1 - 1) ->
   exists px py : R,
     circle_intersections 0 0 1 2 0 1 = Ret (Some (px, py, px, py)) /\
     common 0 0 1 2 0 1 (px, py)).
Proof.
  apply (circle_intersections_common_points 0 0 1 2 0 1); lra.
Defined.

(** ** Sums and slices of the segment lengths *)

Lemma fold_left_Rplus_acc (t : list R) (acc : R) :
  fold_left Rplus t acc = acc + fold_left Rplus t 0.
Proof.
  revert acc. induction t as [| v t IH]; intros acc; cbn [fold_left].
  - ring.
  - rewrite (IH (acc + v)), (IH (0 + v)). ring.
Qed.

Lemma py_sum_nil : py_sum [] = 0.
Proof. reflexivity. Qed.

Lemma py_sum_cons (v : R) (t : list R) : py_sum (v :: t) = v + py_sum t.
Proof.
  unfold py_sum. cbn [fold_left]. rewrite fold_left_Rplus_acc. ring.
Qed.

Lemma py_sum_app (t u : list R) : py_sum (t ++ u) = py_sum t + py_sum u.
Proof.
  induction t as [| v t IH]; cbn [app].
  - rewrite py_sum_nil. ring.
  - rewrite !py_sum_cons, IH. ring.
Qed.

Lemma py_sum_pos (t : list R) :
  t <> [] -> Forall (fun v => 0 < v) t -> 0 < py_sum t.
Proof.
  intros Hne Hall. induction Hall as [| v t Hv Hall IH]; [contradiction |].
  rewrite py_sum_cons. destruct t as [| w t].
  - rewrite py_sum_nil. lra.
  - assert (0 < py_sum (w :: t)) by (apply IH; discriminate). lra.
Qed.

Lemma py_sum_nonneg (t : list R) :
  Forall (fun v => 0 < v) t -> 0 <= py_sum t.
Proof.
  intros Hall. destruct t as [| v t].
  - rewrite py_sum_nil. lra.
  - left. apply py_sum_pos; [discriminate | exact Hall].
Qed.

Lemma slice_at (t : list R) (k : nat) (v : R) :
  nth_error t k = Some v ->
  firstn (S k) t = firstn k t ++ [v] /\ skipn k t = v :: skipn (S k) t.
Proof.
  revert k. induction t as [| w t IH]; intros [| k] H; cbn in H; try discriminate.
  - injection H as ->. split; reflexivity.
  - destruct (IH k H) as [E1 E2]. split.
    + cbn [firstn app]. cbn [firstn] in E1. now rewrite E1.
    + cbn [skipn]. cbn [skipn] in E2. exact E2.
Qed.

Lemma py_sum_split (t : list R) (k : nat) :
  py_sum t = py_sum (firstn k t) + py_sum (skipn k t).
Proof. rewrite <- py_sum_app. now rewrite firstn_skipn. Qed.

Lemma Forall_pos_nth (t : list R) (k : nat) (v : R) :
  Forall (fun v => 0 < v) t -> nth_error t k = Some v -> 0 < v.
Proof.
  intros Hall H. apply nth_error_In in H.
  rewrite Forall_forall in Hall. now apply Hall.
Qed.

(** ** The partition loop *)

Lemma partition_loop_S (fuel : nat) (d : R) (t : list R)
    (a1 a3 : R) (k : nat) :
  partition_loop (S fuel) d t a1 a3 k =
  (cur <- py_index t k ;;
   if Rgt_dec a3 (d + a1 + cur) then
     inc <- py_index t k ;;
     dec <- py_index t (S k) ;;
     partition_loop fuel d t (a1 + inc) (a3 - dec) (S k)
   else Ret (a1, a3, k)).
Proof. reflexivity. Qed.

Lemma partition_loop_more_fuel (fuel : nat) (d : R) (t : list R)
    (a1 a3 : R) (k : nat) (r : R * R * nat) :
  partition_loop fuel d t a1 a3 k = Ret r ->
  partition_loop (S fuel) d t a1 a3 k = Ret r.
Proof.
  revert a1 a3 k. induction fuel as [| fuel IH]; intros a1 a3 k H.
  - discriminate.
  - rewrite partition_loop_S in H. rewrite partition_loop_S.
    destruct (py_index t k) as [cur | e |]; cbn [bind] in *; try discriminate.
    destruct (Rgt_dec a3 (d + a1 + cur)); [| exact H].
    destruct (py_index t (S k)) as [nxt | e |]; cbn [bind] in *; try discriminate.
    apply IH in H. exact H.
Qed.

Lemma partition_loop_fuel_le (fuel fuel' : nat) (d : R) (t : list R)
    (a1 a3 : R) (k : nat) (r : R * R * nat) :
  (fuel <= fuel')%nat ->
  partition_loop fuel d t a1 a3 k = Ret r ->
  partition_loop fuel' d t a1 a3 k = Ret r.
Proof.
  intros Hle H. induction Hle as [| m Hle IH]; [exact H |].
  now apply partition_loop_more_fuel.
Qed.

(** From a partitioned state the loop stops, within [len - k] tests of its
    condition, in a partitioned state where the condition is false; it reads
    no index past the end.  The only fact about the numbers it needs is that
    the condition is false at the last index, which is [0 < d + sum]. *)
Lemma partition_loop_spec (fuel : nat) (d : R) (t : list R)
    (a1 a3 : R) (k : nat) :
  0 < d + py_sum t ->
  partitioned t a1 a3 k ->
  (length t - k <= fuel)%nat ->
  exists (a1' a3' a2 : R) (k' : nat),
    partition_loop fuel d t a1 a3 k = Ret (a1', a3', k') /\
    partitioned t a1' a3' k' /\
    nth_error t k' = Some a2 /\
    a3' <= d + a1' + a2 /\
    (k <= k')%nat.
Proof.
  intros Hlast. revert a1 a3 k.
  induction fuel as [| fuel IH]; intros a1 a3 k (Hk & H1 & H3) Hfuel.
  - lia.
  - rewrite partition_loop_S.
    destruct (nth_error t k) as [cur |] eqn:Hcur.
    2:{ apply nth_error_None in Hcur. lia. }
    rewrite (py_index_ret _ _ _ Hcur). cbn [bind].
    destruct (slice_at _ _ _ Hcur) as [Ef Es].
    destruct (Rgt_dec a3 (d + a1 + cur)) as [Hgo | Hstop].
    + destruct (nth_error t (S k)) as [nxt |] eqn:Hnxt.
      * rewrite (py_index_ret _ _ _ Hnxt). cbn [bind].
        destruct (slice_at _ _ _ Hnxt) as [Ef' Es'].
        assert (partitioned t (a1 + cur) (a3 - nxt) (S k)) as Hinv.
        { split; [| split].
          - apply nth_error_Some. congruence.
          - rewrite Ef, py_sum_app, py_sum_cons, py_sum_nil, H1. ring.
          - rewrite H3, Es', py_sum_cons. ring. }
        destruct (IH _ _ _ Hinv ltac:(lia)) as (a1' & a3' & a2 & k' & E & I & N & C & L).
        exists a1', a3', a2, k'. repeat split; try assumption; try apply I. lia.
      * exfalso. apply nth_error_None in Hnxt.
        assert (skipn (S k) t = []) as Z by (apply skipn_all2; exact Hnxt).
        rewrite Z, py_sum_nil in H3.
        pose proof (py_sum_split t k) as Hsp.
        rewrite Es, Z, py_sum_cons, py_sum_nil, <- H1 in Hsp. lra.
    + exists a1, a3, cur, k. repeat split; try assumption; try lra. lia.
Qed.

Lemma partitioned_start (t : list R) :
  t <> [] -> partitioned t 0 (py_sum (skipn 1 t)) 0.
Proof.
  intros Hne. split; [| split].
  - destruct t; [contradiction | cbn; lia].
  - reflexivity.
  - reflexivity.
Qed.

(** ** [get_arm_angles]: the guards, the loop, the intersection *)

Lemma get_arm_angles_guarded (x y : R) (t : list R) :
  sqrt (x ^ 2 + y ^ 2) > py_sum t \/ sqrt (x ^ 2 + y ^ 2) = 0 ->
  get_arm_angles x y t = Ret None.
Proof.
  intros H. unfold get_arm_angles.
  rewrite py_sqrt_ret by apply sum_squares_nonneg. cbn [bind].
  destruct (Rgt_dec _ _) as [_ | N]; [reflexivity |].
  destruct H as [H | H]; [contradiction |].
  apply Reqb_true in H. now rewrite H.
Qed.

Lemma get_arm_angles_solving (x y : R) (t : list R) :
  let d := sqrt (x ^ 2 + y ^ 2) in
  d <= py_sum t -> d <> 0 ->
  exists (a1 a3 a2 : R) (k : nat),
    partition_loop (loop_budget t) d t 0 (py_sum (skipn 1 t)) 0
      = Ret (a1, a3, k) /\
    partitioned t a1 a3 k /\
    nth_error t k = Some a2 /\
    a3 <= d + a1 + a2 /\
    get_arm_angles x y t =
      (intersection <-
         circle_intersections (x * (- a1 / d)) (y * (- a1 / d)) a2 x y a3 ;;
       angles_from (atan2 (- y) (- x)) (x * (- a1 / d)) (y * (- a1 / d)) x y
         (length t) k intersection).
Proof.
  intros d Hle Hnz.
  assert (0 <= d) as Hd by apply sqrt_pos.
  assert (t <> []) as Hne.
  { intros ->. rewrite py_sum_nil in Hle. lra. }
  destruct (partition_loop_spec (loop_budget t) d t 0 (py_sum (skipn 1 t)) 0)
    as (a1 & a3 & a2 & k & E & I & N & C & _).
  { lra. }
  { now apply partitioned_start. }
  { unfold loop_budget. lia. }
  exists a1, a3, a2, k. repeat split; try assumption; try apply I.
  unfold get_arm_angles.
  rewrite py_sqrt_ret by apply sum_squares_nonneg. cbn [bind]. fold d.
  destruct (Rgt_dec d (py_sum t)) as [G | _]; [lra |].
  assert (Reqb d 0 = false) as -> by (now apply Reqb_false).
  rewrite E. cbn [bind].
  rewrite (py_index_ret _ _ _ N). cbn [bind].
  rewrite py_div_ret by exact Hnz. cbn [bind].
  destruct (circle_intersections _ _ _ _ _ _) as [[[[[x2 y2] x4] y4] |] | e |];
    reflexivity.
Qed.

Lemma angles_length (T : Type) (u v w : T) (n k : nat) :
  (k < n)%nat ->
  length ((repeat u k ++ [v]) ++ repeat w (n - k - 1)) = n.
Proof.
  intros Hk. rewrite !length_app, !repeat_length. cbn [length]. lia.
Qed.

(** Past its two guards, [get_arm_angles] returns: either the absence signal,
    exactly when the circle-intersection call does, or one angle per
    segment. *)
Lemma get_arm_angles_total (x y : R) (t : list R) :
  let d := sqrt (x ^ 2 + y ^ 2) in
  d <= py_sum t -> d <> 0 ->
  (get_arm_angles x y t = Ret None /\ intersection_absent x y t) \/
  (exists angles : list R,
     get_arm_angles x y t = Ret (Some angles) /\ length angles = length t /\
     ~ intersection_absent x y t).
Proof.
  intros d Hle Hnz.
  destruct (get_arm_angles_solving x y t Hle Hnz)
    as (a1 & a3 & a2 & k & E & I & N & C & G).
  fold d in E, G.
  destruct (rejected_dec
              (dist (x * (- a1 / d)) (y * (- a1 / d)) x y) a2 a3) as [Hr | Ha].
  - left. rewrite G.
    rewrite (circle_intersections_rejected _ _ _ _ _ _ Hr). cbn [bind angles_from].
    split; [reflexivity |].
    exists a1, a3, a2, k. fold d. repeat split.
    + exact E.
    + now apply py_index_ret.
    + now apply circle_intersections_rejected.
  - right. rewrite G.
    pose proof (circle_intersections_accepted _ _ _ _ _ _ Ha) as Hc.
    rewrite Hc. cbn [bind].
    destruct (crossing _ _ _ _ _ _) as [[[x2 y2] x4] y4].
    cbn [angles_from]. eexists. split; [reflexivity |]. split.
    + apply angles_length. apply I.
    + intros (b1 & b3 & b2 & j & E' & N' & Hnone). fold d in E', Hnone.
      rewrite E in E'. injection E' as <- <- <-.
      rewrite (py_index_ret _ _ _ N) in N'. injection N' as <-.
      rewrite Hc in Hnone. discriminate.
Qed.


(** C7. For a non-empty sequence of positive lengths and a target at
    distance [0 < d <= sum], the partition loop stops with
    [second_arm_index] below the length of the sequence, having read no
    index past the end (it returns instead of raising [IndexError]); the
    index it stops at is in bounds, and any larger iteration budget gives
    the same result. *)
Theorem partition_loop_in_bounds (x y : R) (arm_lengths : list R) :
  let d := sqrt (x ^ 2 + y ^ 2) in
  arm_lengths <> [] ->
  Forall (fun v => 0 < v) arm_lengths ->
  0 < d -> d <= py_sum arm_lengths ->
  exists (arm_length_1 arm_length_3 arm_length_2 : R) (second_arm_index : nat),
    (forall fuel : nat,
       (length arm_lengths <= fuel)%nat ->
       partition_loop fuel d arm_lengths 0 (py_sum (skipn 1 arm_lengths)) 0
       = Ret (arm_length_1, arm_length_3, second_arm_index)) /\
    (second_arm_index < length arm_lengths)%nat /\
    py_index arm_lengths second_arm_index = Ret arm_length_2 /\
    arm_length_1 = py_sum (firstn second_arm_index arm_lengths) /\
    arm_length_3 = py_sum (skipn (S second_arm_index) arm_lengths).
Proof.
  intros d Hne Hall Hd Hle.
  destruct (partition_loop_spec (length arm_lengths) d arm_lengths
              0 (py_sum (skipn 1 arm_lengths)) 0)
    as (a1 & a3 & a2 & k & E & (Hk & H1 & H3) & N & _ & _).
  { lra. }
  { now apply partitioned_start. }
  { lia. }
  exists a1, a3, a2, k. repeat split; try assumption.
  - intros fuel Hfuel. exact (partition_loop_fuel_le _ _ _ _ _ _ _ _ Hfuel E).
  - now apply py_index_ret.
Qed.

Lemma sqrt_sq_one : sqrt (1 ^ 2 + 0 ^ 2) = 1.
Proof. apply sqrt_eq; lra. Qed.

Lemma partition_loop_in_bounds_witness :
  exists (arm_length_1 arm_length_3 arm_length_2 : R) (second_arm_index : nat),
    (forall fuel : nat,
       (length [1; 1] <= fuel)%nat ->
       partition_loop fuel (sqrt (1 ^ 2 + 0 ^ 2)) [1; 1]
         0 (py_sum (skipn 1 [1; 1])) 0
       = Ret (arm_length_1, arm_length_3, second_arm_index)) /\
    (second_arm_index < length [1; 1])%nat /\
    py_index [1; 1] second_arm_index = Ret arm_length_2 /\
    arm_length_1 = py_sum (firstn second_arm_index [1; 1]) /\
    arm_length_3 = py_sum (skipn (S second_arm_index) [1; 1]).
Proof.
  apply (partition_loop_in_bounds 1 0 [1; 1]).
  - discriminate.
  - repeat constructor; lra.
  - rewrite sqrt_sq_one. lra.
  - rewrite sqrt_sq_one. rewrite !py_sum_cons, py_sum_nil. lra.
Defined.

(** Over exact real arithmetic, for every input [get_arm_angles] returns
    either the absence signal or a list with exactly one angle per segment
    length; it returns nothing else (no other length, no exception). *)
Theorem get_arm_angles_length (x y : R) (arm_lengths : list R) :
  get_arm_angles x y arm_lengths = Ret None \/
  exists angles : list R,
    get_arm_angles x y arm_lengths = Ret (Some angles) /\
    length angles = length arm_lengths.
Proof.
  destruct (Rgt_dec (sqrt (x ^ 2 + y ^ 2)) (py_sum arm_lengths)) as [G | G].
  { left. apply get_arm_angles_guarded. now left. }
  destruct (Req_dec_T (sqrt (x ^ 2 + y ^ 2)) 0) as [Z | Z].
  { left. apply get_arm_angles_guarded. now right. }
  destruct (get_arm_angles_total x y arm_lengths) as [[E _] | (angles & E & L & _)];
    [lra | exact Z | now left | right; now exists angles].
Qed.

(** X13. Over exact real arithmetic, [get_arm_angles] returns the absence
    signal if and only if the distance [d] of the target exceeds the sum of
    the lengths, or [d] is zero, or the circle-intersection step returns
    absence; in every other case it returns a full angle sequence (one angle
    per segment), and in no case an exception.  (On floats the last two
    parts fail: see [FloatFacts].) *)
Theorem get_arm_angles_absence_iff (x y : R) (arm_lengths : list R) :
  let d := sqrt (x ^ 2 + y ^ 2) in
  (get_arm_angles x y arm_lengths = Ret None <->
   d > py_sum arm_lengths \/ d = 0 \/ intersection_absent x y arm_lengths) /\
  (~ (d > py_sum arm_lengths \/ d = 0 \/ intersection_absent x y arm_lengths) ->
   exists angles : list R,
     get_arm_angles x y arm_lengths = Ret (Some angles) /\
     length angles = length arm_lengths) /\
  (forall e : exn, get_arm_angles x y arm_lengths <> Raise e) /\
  get_arm_angles x y arm_lengths <> OutOfFuel.
Proof.
  intros d.
  destruct (Rgt_dec d (py_sum arm_lengths)) as [G | G].
  { assert (get_arm_angles x y arm_lengths = Ret None) as E
      by (apply get_arm_angles_guarded; now left).
    rewrite E. repeat split; try tauto; try discriminate. }
  destruct (Req_dec_T d 0) as [Z | Z].
  { assert (get_arm_angles x y arm_lengths = Ret None) as E
      by (apply get_arm_angles_guarded; now right).
    rewrite E. repeat split; try tauto; try discriminate. }
  destruct (get_arm_angles_total x y arm_lengths)
    as [[E A] | (angles & E & L & A)]; [fold d; lra | exact Z | |].
  - rewrite E. repeat split; try tauto; try discriminate.
  - rewrite E. split; [| split; [| split]].
    + split; [discriminate |]. intros [H | [H | H]]; [lra | lra | contradiction].
    + intros _. now exists angles.
    + discriminate.
    + discriminate.
Qed.

(** ** [atan2] recovers the direction of a vector *)

Lemma sqrt_one_plus_sqr (q s : R) :
  0 < s -> 1 + q ^ 2 = s ^ 2 -> sqrt (1 + Rsqr q) = s.
Proof.
  intros Hs H. apply sqrt_eq; [lra |]. rewrite <- H. unfold Rsqr. ring.
Qed.

Lemma atan_polar (u v r : R) :
  0 < r -> u <> 0 -> u ^ 2 + v ^ 2 = r ^ 2 ->
  r * cos (atan (v / u)) = Rabs u /\
  r * sin (atan (v / u)) = v * (Rabs u / u).
Proof.
  intros Hr Hu Hsq.
  assert (0 < Rabs u) as Ha by (now apply Rabs_pos_lt).
  assert (Rabs u ^ 2 = u ^ 2) as Ha2.
  { unfold Rabs. destruct (Rcase_abs u); ring. }
  assert (sqrt (1 + Rsqr (v / u)) = r / Rabs u) as Hs.
  { apply sqrt_one_plus_sqr.
    - apply Rdiv_lt_0_compat; lra.
    - replace ((r / Rabs u) ^ 2) with (r ^ 2 / Rabs u ^ 2) by (field; lra).
      rewrite Ha2, <- Hsq. field. exact Hu. }
  rewrite cos_atan, sin_atan, Hs. split; field; split; lra.
Qed.

Lemma atan2_polar_pos (u v r : R) :
  0 < r -> u ^ 2 + v ^ 2 = r ^ 2 ->
  r * cos (atan2 v u) = u /\ r * sin (atan2 v u) = v.
Proof.
  intros Hr Hsq. unfold atan2.
  destruct (Rlt_dec 0 u) as [Hu | Hu].
  { destruct (atan_polar u v r Hr ltac:(lra) Hsq) as [Hc Hs].
    rewrite Rabs_right in Hc, Hs by lra.
    split; [exact Hc |]. rewrite Hs. field. lra. }
  destruct (Rlt_dec u 0) as [Hu' | Hu'].
  { destruct (atan_polar u v r Hr ltac:(lra) Hsq) as [Hc Hs].
    rewrite Rabs_left in Hc, Hs by lra.
    assert (r * sin (atan (v / u)) = - v) as Hs'.
    { rewrite Hs. field. lra. }
    destruct (Rle_dec 0 v).
    - rewrite neg_cos, neg_sin. split; lra.
    - rewrite cos_minus, sin_minus, cos_PI, sin_PI. split; nra. }
  assert (u = 0) as -> by lra.
  assert (v ^ 2 = r ^ 2) as Hv by lra.
  assert ((v - r) * (v + r) = 0) as Hz by (ring_simplify; lra).
  apply Rmult_integral in Hz.
  destruct (Rlt_dec 0 v) as [Hp | Hp].
  { rewrite cos_PI2, sin_PI2. split; [ring |]. destruct Hz; lra. }
  destruct (Rlt_dec v 0) as [Hn | Hn].
  { rewrite cos_neg, sin_neg, cos_PI2, sin_PI2. split; [ring |].
    destruct Hz; lra. }
  exfalso. destruct Hz; lra.
Qed.

(** A vector of length [r >= 0] is [r] times the unit vector at angle
    [atan2]; at [r = 0] both sides vanish whatever the angle. *)
Lemma atan2_polar (u v r : R) :
  0 <= r -> u ^ 2 + v ^ 2 = r ^ 2 ->
  r * cos (atan2 v u) = u /\ r * sin (atan2 v u) = v.
Proof.
  intros Hr Hsq. destruct (Req_dec_T r 0) as [Z | N].
  - subst r.
    pose proof (pow2_ge_0 u). pose proof (pow2_ge_0 v).
    assert (u ^ 2 = 0) as Zu by lra. assert (v ^ 2 = 0) as Zv by lra.
    apply pow2_eq_0 in Zu, Zv. subst u v. split; ring.
  - apply atan2_polar_pos; [lra | exact Hsq].
Qed.

Lemma atan2_0_pos (u : R) : 0 < u -> atan2 0 u = 0.
Proof.
  intros Hu. unfold atan2. destruct (Rlt_dec 0 u); [| contradiction].
  replace (0 / u) with 0 by (field; lra). apply atan_0.
Qed.

(** ** Walking the chain *)

Lemma walk_app (base : R * R) (a1 a2 t1 t2 : list R) :
  length a1 = length t1 ->
  walk base (a1 ++ a2) (t1 ++ t2) = walk (walk base a1 t1) a2 t2.
Proof.
  unfold walk. revert base t1.
  induction a1 as [| a a1 IH]; intros base [| v t1] Hlen; cbn in Hlen;
    try discriminate.
  - reflexivity.
  - cbn [app combine fold_left]. apply IH. now injection Hlen.
Qed.

Lemma walk_repeat (px py angle : R) (t : list R) :
  walk (px, py) (repeat angle (length t)) t =
  (px + py_sum t * cos angle, py + py_sum t * sin angle).
Proof.
  unfold walk. revert px py.
  induction t as [| v t IH]; intros px py; cbn [length repeat combine fold_left].
  - rewrite py_sum_nil. f_equal; ring.
  - unfold step at 2. cbn [fst snd]. rewrite IH, py_sum_cons. f_equal; ring.
Qed.

Lemma walk_single (px py angle v : R) :
  walk (px, py) [angle] [v] = (px + v * cos angle, py + v * sin angle).
Proof. reflexivity. Qed.

(** The walk along a three-section answer: lead run, bending segment, trail
    run. *)
Lemma walk_sections (t : list R) (k : nat) (a2 angle_1 angle_2 angle_3 : R) :
  nth_error t k = Some a2 ->
  walk (0, 0)
    ((repeat angle_1 k ++ [angle_2]) ++ repeat angle_3 (length t - k - 1)) t =
  let a1 := py_sum (firstn k t) in
  let a3 := py_sum (skipn (S k) t) in
  (a1 * cos angle_1 + a2 * cos angle_2 + a3 * cos angle_3,
   a1 * sin angle_1 + a2 * sin angle_2 + a3 * sin angle_3).
Proof.
  intros Hk. cbv zeta.
  assert (k < length t)%nat as Hlt by (apply nth_error_Some; congruence).
  destruct (slice_at _ _ _ Hk) as [_ Es].
  assert (length (firstn k t) = k) as Lf by (rewrite length_firstn; lia).
  assert (length (skipn (S k) t) = (length t - k - 1)%nat) as Ls
    by (rewrite length_skipn; lia).
  assert (t = (firstn k t ++ [a2]) ++ skipn (S k) t) as Et.
  { rewrite <- app_assoc. cbn [app]. rewrite <- Es. symmetry. apply firstn_skipn. }
  rewrite Et at 2.
  rewrite walk_app by (rewrite !length_app, repeat_length, Lf; reflexivity).
  rewrite walk_app by (rewrite repeat_length, Lf; reflexivity).
  rewrite <- Lf at 1. rewrite walk_repeat, walk_single.
  rewrite <- Ls, walk_repeat. f_equal; ring.
Qed.

(** What a successful call returns, with the facts the walk needs: the
    sections, the bend point on both circles, and the three angles. *)
Lemma get_arm_angles_success (x y : R) (t : list R) (angles : list R) :
  get_arm_angles x y t = Ret (Some angles) ->
  let d := sqrt (x ^ 2 + y ^ 2) in
  0 < d /\ d <= py_sum t /\
  exists (a2 x2 y2 : R) (k : nat),
    let a1 := py_sum (firstn k t) in
    let a3 := py_sum (skipn (S k) t) in
    let x1 := x * (- a1 / d) in
    let y1 := y * (- a1 / d) in
    nth_error t k = Some a2 /\
    common x1 y1 a2 x y a3 (x2, y2) /\
    angles =
      (repeat (atan2 (- y) (- x)) k ++ [atan2 (y2 - y1) (x2 - x1)])
      ++ repeat (atan2 (y - y2) (x - x2)) (length t - k - 1).
Proof.
  intros Hret d.
  pose proof (sqrt_pos (x ^ 2 + y ^ 2)) as Hd. fold d in Hd.
  destruct (Rgt_dec d (py_sum t)) as [G | G].
  { rewrite get_arm_angles_guarded in Hret by (now left). discriminate. }
  destruct (Req_dec_T d 0) as [Z | Z].
  { rewrite get_arm_angles_guarded in Hret by (now right). discriminate. }
  split; [lra |]. split; [lra |].
  destruct (get_arm_angles_solving x y t ltac:(fold d; lra) Z)
    as (a1 & a3 & a2 & k & _ & (_ & H1 & H3) & N & _ & E).
  fold d in E. rewrite E in Hret. clear E.
  destruct (rejected_dec
              (dist (x * (- a1 / d)) (y * (- a1 / d)) x y) a2 a3) as [Hr | Ha].
  { rewrite (circle_intersections_rejected _ _ _ _ _ _ Hr) in Hret.
    discriminate. }
  rewrite (circle_intersections_accepted _ _ _ _ _ _ Ha) in Hret.
  cbn [bind] in Hret.
  destruct (crossing _ _ _ _ _ _) as [[[x2 y2] x4] y4] eqn:Hc.
  destruct (crossing_common _ _ _ _ _ _ _ _ _ _ Ha Hc) as [Hcom _].
  cbn [angles_from] in Hret.
  exists a2, x2, y2, k. cbv zeta. rewrite <- H1, <- H3.
  split; [exact N |]. split; [exact Hcom |]. congruence.
Qed.

(** C1. For a non-empty sequence of positive segment lengths, whenever
    [get_arm_angles] returns an angle sequence, walking the chain from the
    origin, each segment advancing by its length times
    [(cos angle, sin angle)], ends exactly at the target. *)
Theorem get_arm_angles_reaches_target (x y : R) (arm_lengths angles : list R) :
  arm_lengths <> [] ->
  Forall (fun v => 0 < v) arm_lengths ->
  get_arm_angles x y arm_lengths = Ret (Some angles) ->
  walk (0, 0) angles arm_lengths = (x, y).
Proof.
  intros _ Hall Hret.
  destruct (get_arm_angles_success _ _ _ _ Hret)
    as (Hd & _ & a2 & x2 & y2 & k & N & [H0 H1] & ->).
  cbv zeta in N, H0, H1.
  rewrite (walk_sections _ _ _ _ _ _ N). cbv zeta.
  set (d := sqrt (x ^ 2 + y ^ 2)) in *.
  set (a1 := py_sum (firstn k arm_lengths)) in *.
  set (a3 := py_sum (skipn (S k) arm_lengths)) in *.
  set (x1 := x * (- a1 / d)) in *. set (y1 := y * (- a1 / d)) in *.
  unfold on_circle in H0, H1. cbn [fst snd] in H0, H1.
  assert (0 < a2) as Ha2 by exact (Forall_pos_nth _ _ _ Hall N).
  assert (0 <= a3) as Ha3.
  { apply py_sum_nonneg.
    rewrite <- (firstn_skipn (S k) arm_lengths) in Hall.
    apply Forall_app in Hall. apply Hall. }
  assert ((- x) ^ 2 + (- y) ^ 2 = d ^ 2) as Hsq.
  { unfold d. rewrite pow2_sqrt by apply sum_squares_nonneg. ring. }
  destruct (atan2_polar_pos (- x) (- y) d Hd Hsq) as [C1 S1].
  destruct (atan2_polar (x2 - x1) (y2 - y1) a2 ltac:(lra) H0) as [C2 S2].
  assert ((x - x2) ^ 2 + (y - y2) ^ 2 = a3 ^ 2) as H1'
    by (rewrite <- H1; ring).
  destruct (atan2_polar (x - x2) (y - y2) a3 Ha3 H1') as [C3 S3].
  assert (a1 * cos (atan2 (- y) (- x)) = x1) as E1.
  { set (c := cos (atan2 (- y) (- x))) in *.
    replace (a1 * c) with (a1 * (d * c) / d) by (field; lra).
    rewrite C1. unfold x1. field. lra. }
  assert (a1 * sin (atan2 (- y) (- x)) = y1) as E2.
  { set (c := sin (atan2 (- y) (- x))) in *.
    replace (a1 * c) with (a1 * (d * c) / d) by (field; lra).
    rewrite S1. unfold y1. field. lra. }
  rewrite E1, E2, C2, S2, C3, S3. f_equal; ring.
Qed.

(** ** The fully extended chain *)

Lemma partition_loop_full_reach (v d : R) (t : list R) :
  0 < v -> d = v + py_sum t ->
  partition_loop (loop_budget (v :: t)) d (v :: t)
    0 (py_sum (skipn 1 (v :: t))) 0 = Ret (0, py_sum t, 0%nat).
Proof.
  intros Hv Hd. unfold loop_budget. rewrite partition_loop_S.
  cbn [py_index nth_error bind skipn].
  destruct (Rgt_dec (py_sum t) (d + 0 + v)) as [G | _]; [lra | reflexivity].
Qed.

Lemma dist_from_origin (x y : R) : dist 0 0 x y = sqrt (x ^ 2 + y ^ 2).
Proof. unfold dist. f_equal. ring. Qed.

Lemma full_reach_not_absent (x y : R) (arm_lengths : list R) :
  arm_lengths <> [] ->
  Forall (fun v => 0 < v) arm_lengths ->
  sqrt (x ^ 2 + y ^ 2) = py_sum arm_lengths ->
  ~ intersection_absent x y arm_lengths.
Proof.
  intros Hne Hall Hd.
  destruct arm_lengths as [| v t]; [contradiction |].
  pose proof (Forall_inv Hall) as Hv. cbv beta in Hv.
  pose proof (py_sum_nonneg t (Forall_inv_tail Hall)) as Ht.
  rewrite py_sum_cons in Hd.
  intros (a1 & a3 & a2 & k & E & N & Hnone). cbv zeta in E, N, Hnone.
  rewrite (partition_loop_full_reach v _ t Hv Hd) in E.
  injection E as <- <- <-.
  cbn [py_index nth_error] in N. injection N as <-.
  set (d := sqrt (x ^ 2 + y ^ 2)) in *.
  assert (x * (- 0 / d) = 0) as Zx by (field; lra).
  assert (y * (- 0 / d) = 0) as Zy by (field; lra).
  rewrite Zx, Zy in Hnone.
  rewrite circle_intersections_accepted in Hnone; [discriminate |].
  rewrite dist_from_origin. fold d. unfold rejected.
  pose proof (Rabs_le_both (v - py_sum t) d). lra.
Qed.

(** Scenario C of the spec: two segments of length 100, target (200, 0). *)
Lemma get_arm_angles_scenario_C :
  get_arm_angles 200 0 [100; 100] = Ret (Some [0; 0]).
Proof.
  assert (sqrt (200 ^ 2 + 0 ^ 2) = 200) as Ed by (apply sqrt_eq; lra).
  assert (py_sum [100; 100] = 200) as Es
    by (rewrite !py_sum_cons, py_sum_nil; lra).
  assert (py_sum [100] = 100) as Es1 by (rewrite py_sum_cons, py_sum_nil; lra).
  unfold get_arm_angles.
  rewrite py_sqrt_ret by apply sum_squares_nonneg. cbn [bind].
  rewrite Ed, Es.
  destruct (Rgt_dec 200 200) as [G | _]; [lra |].
  assert (Reqb 200 0 = false) as -> by (apply Reqb_false; lra).
  rewrite (partition_loop_full_reach 100 200 [100]) by lra. cbn [bind].
  cbn [py_index nth_error bind].
  rewrite py_div_ret by lra. cbn [bind].
  replace (200 * (- 0 / 200)) with 0 by (field; lra).
  replace (0 * (- 0 / 200)) with 0 by (field; lra).
  rewrite Es1.
  rewrite (circle_intersections_eval 0 0 100 200 0 100 200 100 0) by lra.
  cbn [bind length repeat app Nat.sub].
  replace (0 + 100 * (0 - 0) / 200 - 0 * (200 - 0) / 200 - 0) with 0
    by (field; lra).
  replace (0 + 100 * (200 - 0) / 200 + 0 * (0 - 0) / 200 - 0) with 100
    by (field; lra).
  replace (0 - (0 + 100 * (0 - 0) / 200 - 0 * (200 - 0) / 200)) with 0
    by (field; lra).
  replace (200 - (0 + 100 * (200 - 0) / 200 + 0 * (0 - 0) / 200)) with 100
    by (field; lra).
  rewrite atan2_0_pos by lra. reflexivity.
Qed.

(** X16. Over exact real arithmetic, a target at distance exactly the sum of
    the (positive) lengths of a non-empty chain is solved: [get_arm_angles]
    returns an angle sequence.  In particular, for lengths (100, 100) and
    target (200, 0) it returns [0; 0], and walking that answer ends at
    (200, 0).  (On floats the general part fails: see [FloatFacts].) *)
Theorem get_arm_angles_full_reach :
  (forall (x y : R) (arm_lengths : list R),
     arm_lengths <> [] ->
     Forall (fun v => 0 < v) arm_lengths ->
     sqrt (x ^ 2 + y ^ 2) = py_sum arm_lengths ->
     exists angles : list R,
       get_arm_angles x y arm_lengths = Ret (Some angles)) /\
  get_arm_angles 200 0 [100; 100] = Ret (Some [0; 0]) /\
  walk (0, 0) [0; 0] [100; 100] = (200, 0).
Proof.
  split; [| split].
  - intros x y arm_lengths Hne Hall Hd.
    pose proof (py_sum_pos _ Hne Hall) as Hpos.
    destruct (get_arm_angles_total x y arm_lengths)
      as [[_ A] | (angles & E & _ & _)]; [lra | lra | | now exists angles].
    exfalso. revert A. now apply full_reach_not_absent.
  - exact get_arm_angles_scenario_C.
  - unfold walk. cbn [combine fold_left]. unfold step. cbn [fst snd].
    rewrite cos_0, sin_0. f_equal; ring.
Qed.

Lemma get_arm_angles_full_reach_witness :
  exists angles : list R,
    get_arm_angles 200 0 [100; 100] = Ret (Some angles).
Proof.
  apply (proj1 get_arm_angles_full_reach 200 0 [100; 100]).
  - discriminate.
  - repeat constructor; lra.
  - rewrite !py_sum_cons, py_sum_nil. apply sqrt_eq; lra.
Defined.

Lemma get_arm_angles_reaches_target_witness :
  walk (0, 0) [0; 0] [100; 100] = (200, 0).
Proof.
  apply (get_arm_angles_reaches_target 200 0 [100; 100] [0; 0]).
  - discriminate.
  - repeat constructor; lra.
  - exact get_arm_angles_scenario_C.
Defined.

Lemma get_arm_angles_absence_iff_witness :
  exists angles : list R,
    get_arm_angles 200 0 [100; 100] = Ret (Some angles) /\
    length angles = length [100; 100].
Proof.
  apply (proj1 (proj2 (get_arm_angles_absence_iff 200 0 [100; 100]))).
  assert (sqrt (200 ^ 2 + 0 ^ 2) = 200) as Ed by (apply sqrt_eq; lra).
  assert (py_sum [100; 100] = 200) as Es
    by (rewrite !py_sum_cons, py_sum_nil; lra).
  intros [H | [H | H]].
  - lra.
  - lra.
  - revert H. apply full_reach_not_absent.
    + discriminate.
    + repeat constructor; lra.
    + lra.
Defined.


(** * Further properties of the solver *)

(** ** The range of the returned angles *)

Lemma atan2_range (y x : R) : - PI < atan2 y x <= PI.
Proof.
  pose proof PI_RGT_0 as Hpi. unfold atan2.
  destruct (Rlt_dec 0 x) as [Hx | Hx].
  { pose proof (atan_bound (y / x)). lra. }
  destruct (Rlt_dec x 0) as [Hx' | Hx'].
  { pose proof (atan_bound (y / x)) as Hb.
    destruct (Rle_dec 0 y) as [Hy | Hy].
    - assert (atan (y / x) <= 0) as Hle.
      { destruct (Req_dec_T y 0) as [-> | Hy0].
        - replace (0 / x) with 0 by (field; lra). rewrite atan_0. lra.
        - left. rewrite <- atan_0. apply atan_increasing.
          apply Ropp_lt_cancel. rewrite Ropp_0.
          replace (- (y / x)) with (y / - x) by (field; lra).
          apply Rdiv_lt_0_compat; lra. }
      lra.
    - assert (0 < atan (y / x)) as Hlt.
      { rewrite <- atan_0. apply atan_increasing.
        replace (y / x) with (- y / - x) by (field; lra).
        apply Rdiv_lt_0_compat; lra. }
      lra. }
  destruct (Rlt_dec 0 y); [lra |].
  destruct (Rlt_dec y 0); lra.
Qed.

Lemma Forall_repeat (T : Type) (P : T -> Prop) (a : T) (n : nat) :
  P a -> Forall P (repeat a n).
Proof. intros H. induction n; cbn [repeat]; constructor; assumption. Qed.

(** X1. Every angle of a returned sequence lies in (-pi, pi], as the
    docstring of [get_arm_angles] says. *)
Theorem get_arm_angles_angle_range (x y : R) (arm_lengths angles : list R) :
  get_arm_angles x y arm_lengths = Ret (Some angles) ->
  Forall (fun a => - PI < a <= PI) angles.
Proof.
  intros Hret.
  destruct (get_arm_angles_success _ _ _ _ Hret)
    as (_ & _ & a2 & x2 & y2 & k & _ & _ & ->).
  apply Forall_app. split; [apply Forall_app; split |].
  - apply Forall_repeat, atan2_range.
  - constructor; [apply atan2_range | constructor].
  - apply Forall_repeat, atan2_range.
Qed.

Lemma get_arm_angles_angle_range_witness :
  Forall (fun a => - PI < a <= PI) [0; 0].
Proof.
  apply (get_arm_angles_angle_range 200 0 [100; 100] [0; 0]).
  exact get_arm_angles_scenario_C.
Defined.

(** ** At most two bends *)

Lemma bends_cons2 (a b : R) (t : list R) :
  bends (a :: b :: t) =
  ((if Req_dec_T a b then 0 else 1) + bends (b :: t))%nat.
Proof. reflexivity. Qed.

Lemma bends_repeat (a : R) (n : nat) : bends (repeat a n) = 0%nat.
Proof.
  induction n as [| n IH]; [reflexivity |].
  destruct n as [| n]; [reflexivity |].
  change (repeat a (S (S n))) with (a :: a :: repeat a n).
  change (repeat a (S n)) with (a :: repeat a n) in IH.
  rewrite bends_cons2, IH.
  destruct (Req_dec_T a a); [reflexivity | contradiction].
Qed.

Lemma bends_cons_repeat (b c : R) (m : nat) :
  (bends (b :: repeat c m) <= 1)%nat.
Proof.
  destruct m as [| m]; [cbn; lia |].
  change (repeat c (S m)) with (c :: repeat c m).
  rewrite bends_cons2.
  change (c :: repeat c m) with (repeat c (S m)).
  rewrite bends_repeat. destruct (Req_dec_T b c); lia.
Qed.

Lemma bends_repeat_app (a b : R) (k : nat) (rest : list R) :
  (bends (repeat a k ++ b :: rest) <= 1 + bends (b :: rest))%nat.
Proof.
  induction k as [| k IH]; [cbn [repeat app]; lia |].
  destruct k as [| k].
  - cbn [repeat app]. rewrite bends_cons2. destruct (Req_dec_T a b); lia.
  - change (repeat a (S (S k)) ++ b :: rest)
      with (a :: a :: (repeat a k ++ b :: rest)).
    change (repeat a (S k) ++ b :: rest)
      with (a :: (repeat a k ++ b :: rest)) in IH.
    rewrite bends_cons2.
    destruct (Req_dec_T a a); [| contradiction]. exact IH.
Qed.

(** X2. A returned sequence has the three-section shape: the angle from the
    target back to the origin for every segment before the bending one, one
    angle for the bending segment, one angle for all the segments after it.
    So the chain bends in at most two places. *)
Theorem get_arm_angles_two_bends (x y : R) (arm_lengths angles : list R) :
  get_arm_angles x y arm_lengths = Ret (Some angles) ->
  (exists (k : nat) (angle_2 angle_3 : R),
     (k < length arm_lengths)%nat /\
     angles =
       repeat (atan2 (- y) (- x)) k
       ++ angle_2 :: repeat angle_3 (length arm_lengths - k - 1)) /\
  (bends angles <= 2)%nat.
Proof.
  intros Hret.
  destruct (get_arm_angles_success _ _ _ _ Hret)
    as (_ & _ & a2 & x2 & y2 & k & N & _ & ->).
  cbv zeta in N.
  assert (k < length arm_lengths)%nat as Hk
    by (apply nth_error_Some; congruence).
  rewrite <- app_assoc. cbn [app]. split.
  - eexists k, _, _. split; [exact Hk | reflexivity].
  - etransitivity; [apply bends_repeat_app |].
    pose proof (bends_cons_repeat
                  (atan2 (y2 - y * (- py_sum (firstn k arm_lengths)
                                    / sqrt (x ^ 2 + y ^ 2)))
                         (x2 - x * (- py_sum (firstn k arm_lengths)
                                    / sqrt (x ^ 2 + y ^ 2))))
                  (atan2 (y - y2) (x - x2))
                  (length arm_lengths - k - 1)).
    lia.
Qed.

Lemma get_arm_angles_two_bends_witness :
  (exists (k : nat) (angle_2 angle_3 : R),
     (k < length [100%R; 100%R])%nat /\
     [0; 0] =
       repeat (atan2 (- 0) (- 200)) k
       ++ angle_2 :: repeat angle_3 (length [100%R; 100%R] - k - 1)) /\
  (bends [0%R; 0%R] <= 2)%nat.
Proof.
  apply (get_arm_angles_two_bends 200 0 [100; 100] [0; 0]).
  exact get_arm_angles_scenario_C.
Defined.

(** ** Which segment bends *)

(** What the loop has done when it returns: every index it passed
    satisfied the loop condition, and the index it stopped at does not. *)
Lemma partition_loop_exit (fuel : nat) (d : R) (t : list R)
    (a1 a3 : R) (k : nat) (a1' a3' : R) (k' : nat) :
  partition_loop fuel d t a1 a3 k = Ret (a1', a3', k') ->
  partitioned t a1 a3 k ->
  (k <= k')%nat /\
  partitioned t a1' a3' k' /\
  (forall (i : nat) (v : R),
     (k <= i < k')%nat -> nth_error t i = Some v ->
     py_sum (skipn (S i) t) > d + py_sum (firstn i t) + v) /\
  (forall v : R, nth_error t k' = Some v -> a3' <= d + a1' + v).
Proof.
  revert a1 a3 k. induction fuel as [| fuel IH]; intros a1 a3 k H I.
  - discriminate.
  - rewrite partition_loop_S in H. destruct I as (Hk & H1 & H3).
    destruct (nth_error t k) as [cur |] eqn:Hcur.
    2:{ apply nth_error_None in Hcur. lia. }
    rewrite (py_index_ret _ _ _ Hcur) in H. cbn [bind] in H.
    destruct (slice_at _ _ _ Hcur) as [Ef Es].
    destruct (Rgt_dec a3 (d + a1 + cur)) as [Hgo | Hstop].
    + destruct (nth_error t (S k)) as [nxt |] eqn:Hnxt.
      2:{ unfold py_index in H. rewrite Hnxt in H. discriminate. }
      rewrite (py_index_ret _ _ _ Hnxt) in H. cbn [bind] in H.
      destruct (slice_at _ _ _ Hnxt) as [Ef' Es'].
      assert (partitioned t (a1 + cur) (a3 - nxt) (S k)) as Hinv.
      { split; [| split].
        - apply nth_error_Some. congruence.
        - rewrite Ef, py_sum_app, py_sum_cons, py_sum_nil, H1. ring.
        - rewrite H3, Es', py_sum_cons. ring. }
      destruct (IH _ _ _ H Hinv) as (L & I' & P & Q).
      split; [lia |]. split; [exact I' |]. split; [| exact Q].
      intros i v Hi Hv. destruct (Nat.eq_dec i k) as [-> | Hne].
      * rewrite Hcur in Hv. injection Hv as <-. rewrite <- H1, <- H3. exact Hgo.
      * apply P; [lia | exact Hv].
    + injection H as <- <- <-.
      split; [lia |]. split; [now repeat split |]. split.
      * intros i v Hi. lia.
      * intros v Hv. rewrite Hcur in Hv. injection Hv as <-. lra.
Qed.



(** ** Which targets are solved *)

Lemma first_joint_dist (x y a1 : R) :
  let d := sqrt (x ^ 2 + y ^ 2) in
  0 < d -> 0 <= d + a1 ->
  dist (x * (- a1 / d)) (y * (- a1 / d)) x y = d + a1.
Proof.
  intros d Hd Ha.
  assert (d ^ 2 = x ^ 2 + y ^ 2) as Hsq
    by (unfold d; apply pow2_sqrt, sum_squares_nonneg).
  apply dist_eq; [exact Ha |].
  replace ((x - x * (- a1 / d)) ^ 2 + (y - y * (- a1 / d)) ^ 2)
    with ((x ^ 2 + y ^ 2) * ((d + a1) / d) ^ 2) by (field; lra).
  rewrite <- Hsq. field. lra.
Qed.

Lemma member_le_sum (t : list R) (i : nat) (v : R) :
  Forall (fun v => 0 < v) t -> nth_error t i = Some v -> v <= py_sum t.
Proof.
  intros Hall. revert i. induction Hall as [| w t Hw Hall IH]; intros i H.
  - destruct i; discriminate.
  - rewrite py_sum_cons. pose proof (py_sum_nonneg t Hall).
    destruct i as [| i]; cbn [nth_error] in H.
    + injection H as <-. lra.
    + specialize (IH i H). lra.
Qed.

Lemma Forall_pos_slices (t : list R) (k : nat) :
  Forall (fun v => 0 < v) t ->
  Forall (fun v => 0 < v) (firstn k t) /\ Forall (fun v => 0 < v) (skipn k t).
Proof.
  intros Hall. rewrite <- (firstn_skipn k t) in Hall.
  now apply Forall_app in Hall.
Qed.

(** The loop's choice, with a lower and an upper bound on the distance
    [d + arm_length_1] between the first joint and the target, and the one
    inequality on which the result then depends. *)
Lemma get_arm_angles_bend (x y : R) (t : list R) :
  let d := sqrt (x ^ 2 + y ^ 2) in
  Forall (fun v => 0 < v) t -> 0 < d -> d <= py_sum t ->
  exists (a2 : R) (k : nat),
    let a1 := py_sum (firstn k t) in
    let a3 := py_sum (skipn (S k) t) in
    nth_error t k = Some a2 /\
    a3 <= d + a1 + a2 /\
    d + a1 <= a2 + a3 /\
    py_sum t = a1 + a2 + a3 /\
    (get_arm_angles x y t = Ret None <-> a2 > d + a1 + a3).
Proof.
  intros d Hall Hd Hle.
  assert (t <> []) as Hne.
  { intros ->. rewrite py_sum_nil in Hle. lra. }
  destruct (get_arm_angles_solving x y t Hle ltac:(fold d; lra))
    as (a1 & a3 & a2 & k & E & I & N & C & G).
  fold d in E, C, G.
  destruct (partition_loop_exit _ _ _ _ _ _ _ _ _ E (partitioned_start _ Hne))
    as (_ & _ & P & _).
  destruct I as (Hk & H1 & H3).
  destruct (slice_at _ _ _ N) as [Ef Es].
  assert (py_sum t = a1 + a2 + a3) as Hsum.
  { rewrite (py_sum_split t k), Es, py_sum_cons, <- H1, <- H3. ring. }
  assert (0 <= a1) as Ha1.
  { rewrite H1. apply py_sum_nonneg. now apply Forall_pos_slices. }
  assert (0 <= a3) as Ha3.
  { rewrite H3. apply py_sum_nonneg. now apply Forall_pos_slices. }
  assert (0 < a2) as Ha2 by exact (Forall_pos_nth _ _ _ Hall N).
  assert (d + a1 <= a2 + a3) as J.
  { destruct k as [| j].
    - cbn [firstn] in H1. rewrite py_sum_nil in H1. lra.
    - assert (j < length t)%nat as Hj by lia.
      destruct (nth_error t j) as [w |] eqn:Hw.
      2:{ apply nth_error_None in Hw. lia. }
      destruct (slice_at _ _ _ Hw) as [Ef' _].
      pose proof (P j w ltac:(lia) Hw) as Hgo.
      rewrite Es, py_sum_cons, <- H3 in Hgo.
      rewrite Ef', py_sum_app, py_sum_cons, py_sum_nil in H1. lra. }
  exists a2, k. cbv zeta. rewrite <- H1, <- H3.
  split; [exact N |]. split; [exact C |]. split; [exact J |].
  split; [exact Hsum |].
  pose proof (first_joint_dist x y a1 Hd ltac:(fold d; lra)) as HD.
  fold d in HD. rewrite G.
  destruct (rejected_dec
              (dist (x * (- a1 / d)) (y * (- a1 / d)) x y) a2 a3) as [Hr | Ha].
  - rewrite (circle_intersections_rejected _ _ _ _ _ _ Hr).
    cbn [bind angles_from]. split; [intros _ | reflexivity].
    rewrite HD in Hr. unfold rejected in Hr.
    destruct Hr as [Hr | [Hr | [Hr _]]]; [lra | | lra].
    unfold Rabs in Hr. destruct (Rcase_abs (a2 - a3)); lra.
  - rewrite (circle_intersections_accepted _ _ _ _ _ _ Ha). cbn [bind].
    destruct (crossing _ _ _ _ _ _) as [[[x2 y2] x4] y4]. cbn [angles_from].
    split; [discriminate |]. intros Hbig. exfalso. apply Ha.
    rewrite HD. right; left.
    unfold Rabs. destruct (Rcase_abs (a2 - a3)); lra.
Qed.

(** X4. Over exact real arithmetic, for a non-empty chain of positive
    lengths and a target at distance [0 < d <= sum], [get_arm_angles]
    returns the absence signal exactly
    when one segment is longer than [d] plus all the other segments
    together (the target is then inside the hole the chain cannot reach);
    every other target within reach gets an angle sequence. *)
Theorem get_arm_angles_absent_iff_too_long (x y : R) (arm_lengths : list R) :
  let d := sqrt (x ^ 2 + y ^ 2) in
  Forall (fun v => 0 < v) arm_lengths ->
  0 < d -> d <= py_sum arm_lengths ->
  (get_arm_angles x y arm_lengths = Ret None <->
   exists (j : nat) (v : R),
     nth_error arm_lengths j = Some v /\ v > d + (py_sum arm_lengths - v)) /\
  ((forall (j : nat) (v : R),
      nth_error arm_lengths j = Some v -> v <= d + (py_sum arm_lengths - v)) ->
   exists angles : list R,
     get_arm_angles x y arm_lengths = Ret (Some angles)).
Proof.
  intros d Hall Hd Hle.
  destruct (get_arm_angles_bend x y arm_lengths Hall Hd Hle)
    as (a2 & k & N & C & J & Hsum & Hiff).
  cbv zeta in N, C, J, Hsum, Hiff. fold d in C, J, Hiff.
  set (a1 := py_sum (firstn k arm_lengths)) in *.
  set (a3 := py_sum (skipn (S k) arm_lengths)) in *.
  assert (get_arm_angles x y arm_lengths = Ret None <->
          exists (j : nat) (v : R),
            nth_error arm_lengths j = Some v /\
            v > d + (py_sum arm_lengths - v)) as Hmain.
  { rewrite Hiff. split.
    - intros Hbig. exists k, a2. split; [exact N | lra].
    - intros (j & v & Hv & Hbig).
      destruct (Nat.lt_trichotomy j k) as [Hlt | [-> | Hgt]].
      + exfalso.
        assert (v <= a1) as Hva.
        { apply (member_le_sum (firstn k arm_lengths) j).
          - now apply Forall_pos_slices.
          - rewrite nth_error_firstn.
            destruct (Nat.ltb_spec j k); [exact Hv | lia]. }
        lra.
      + rewrite N in Hv. injection Hv as <-. lra.
      + exfalso.
        assert (v <= a3) as Hva.
        { apply (member_le_sum (skipn (S k) arm_lengths) (j - S k)).
          - now apply Forall_pos_slices.
          - rewrite nth_error_skipn.
            replace (S k + (j - S k))%nat with j by lia. exact Hv. }
        lra. }
  split; [exact Hmain |].
  intros Hfit.
  destruct (get_arm_angles_total x y arm_lengths)
    as [[E _] | (angles & E & _ & _)];
    [fold d; lra | fold d; lra | | now exists angles].
  exfalso. apply Hmain in E. destruct E as (j & v & Hv & Hbig).
  specialize (Hfit j v Hv). lra.
Qed.

Lemma get_arm_angles_absent_iff_too_long_witness :
  (get_arm_angles 200 0 [100; 100] = Ret None <->
   exists (j : nat) (v : R),
     nth_error [100; 100] j = Some v /\
     v > sqrt (200 ^ 2 + 0 ^ 2) + (py_sum [100; 100] - v)) /\
  ((forall (j : nat) (v : R),
      nth_error [100; 100] j = Some v ->
      v <= sqrt (200 ^ 2 + 0 ^ 2) + (py_sum [100; 100] - v)) ->
   exists angles : list R,
     get_arm_angles 200 0 [100; 100] = Ret (Some angles)).
Proof.
  assert (sqrt (200 ^ 2 + 0 ^ 2) = 200) as Ed by (apply sqrt_eq; lra).
  assert (py_sum [100; 100] = 200) as Es
    by (rewrite !py_sum_cons, py_sum_nil; lra).
  apply (get_arm_angles_absent_iff_too_long 200 0 [100; 100]).
  - repeat constructor; lra.
  - rewrite Ed. lra.
  - rewrite Ed, Es. lra.
Defined.

(** ** A chain of one segment *)

(** X5. Over exact real arithmetic, a single segment of length [v > 0]
    reaches exactly the targets at distance [v], and then points straight at
    the target; for every other target the result is the absence signal. *)
Theorem get_arm_angles_single_segment (x y v : R) :
  0 < v ->
  (sqrt (x ^ 2 + y ^ 2) = v ->
   get_arm_angles x y [v] = Ret (Some [atan2 y x])) /\
  (sqrt (x ^ 2 + y ^ 2) <> v -> get_arm_angles x y [v] = Ret None).
Proof.
  intros Hv.
  assert (py_sum [v] = v) as Es by (rewrite py_sum_cons, py_sum_nil; ring).
  split.
  - intros Hd.
    assert (x ^ 2 + y ^ 2 = v ^ 2) as Hsq.
    { rewrite <- Hd. symmetry. apply pow2_sqrt, sum_squares_nonneg. }
    unfold get_arm_angles.
    rewrite py_sqrt_ret by apply sum_squares_nonneg. cbn [bind].
    rewrite Hd, Es.
    destruct (Rgt_dec v v) as [G | _]; [lra |].
    assert (Reqb v 0 = false) as -> by (apply Reqb_false; lra).
    rewrite (partition_loop_full_reach v v [])
      by (rewrite ?py_sum_nil; lra).
    cbn [bind py_index nth_error].
    rewrite py_div_ret by lra. cbn [bind].
    replace (x * (- 0 / v)) with 0 by (field; lra).
    replace (y * (- 0 / v)) with 0 by (field; lra).
    rewrite py_sum_nil.
    rewrite (circle_intersections_eval 0 0 v x y 0 v v 0);
      try lra; [| field; lra].
    cbn [bind length repeat app Nat.sub].
    replace (0 + v * (y - 0) / v - 0 * (x - 0) / v - 0) with y by (field; lra).
    replace (0 + v * (x - 0) / v + 0 * (y - 0) / v - 0) with x by (field; lra).
    reflexivity.
  - intros Hd.
    pose proof (sqrt_pos (x ^ 2 + y ^ 2)) as Hpos.
    destruct (Rgt_dec (sqrt (x ^ 2 + y ^ 2)) v) as [G | G].
    { apply get_arm_angles_guarded. left. rewrite Es. exact G. }
    destruct (Req_dec_T (sqrt (x ^ 2 + y ^ 2)) 0) as [Z | Z].
    { apply get_arm_angles_guarded. now right. }
    destruct (get_arm_angles_bend x y [v]) as (a2 & k & N & _ & _ & _ & Hiff).
    { repeat constructor. exact Hv. }
    { lra. }
    { rewrite Es. lra. }
    cbv zeta in N, Hiff. apply Hiff.
    destruct k as [| k]; [| destruct k; discriminate].
    cbn [nth_error] in N. injection N as <-.
    cbn [firstn skipn]. rewrite py_sum_nil. lra.
Qed.

Lemma get_arm_angles_single_segment_witness :
  (sqrt (1 ^ 2 + 0 ^ 2) = 1 ->
   get_arm_angles 1 0 [1] = Ret (Some [atan2 0 1])) /\
  (sqrt (1 ^ 2 + 0 ^ 2) <> 1 -> get_arm_angles 1 0 [1] = Ret None).
Proof.
  apply (get_arm_angles_single_segment 1 0 1). lra.
Defined.

(** ** More on the two returned points *)

(** X6. Of the two points [circle_intersections] returns, the first lies on
    the right of the directed line from the first centre to the second (or
    on it), the second on the left (or on it); the segment joining them is
    perpendicular to the line of centres and its midpoint is on that line. *)
Theorem circle_intersections_sides (x0 y0 r0 x1 y1 r1 x3 y3 x4 y4 : R) :
  circle_intersections x0 y0 r0 x1 y1 r1 = Ret (Some (x3, y3, x4, y4)) ->
  (x1 - x0) * (y3 - y0) - (y1 - y0) * (x3 - x0) <= 0 /\
  0 <= (x1 - x0) * (y4 - y0) - (y1 - y0) * (x4 - x0) /\
  (x3 - x4) * (x1 - x0) + (y3 - y4) * (y1 - y0) = 0 /\
  (x1 - x0) * ((y3 + y4) / 2 - y0) - (y1 - y0) * ((x3 + x4) / 2 - x0) = 0.
Proof.
  intros Hret.
  destruct (rejected_dec (dist x0 y0 x1 y1) r0 r1) as [Hr | Ha].
  { rewrite (circle_intersections_rejected _ _ _ _ _ _ Hr) in Hret.
    discriminate. }
  rewrite (circle_intersections_accepted _ _ _ _ _ _ Ha) in Hret.
  pose proof (accepted_pos _ r0 r1 (dist_nonneg _ _ _ _) Ha) as Hpos.
  pose proof (dist_sqr x0 y0 x1 y1) as Hsq.
  assert (0 <= half_chord (dist x0 y0 x1 y1) r0 r1) as Hh
    by (unfold half_chord; apply sqrt_pos).
  unfold crossing in Hret. cbv zeta in Hret.
  set (d := dist x0 y0 x1 y1) in *.
  set (a := chord_offset d r0 r1) in *. set (h := half_chord d r0 r1) in *.
  assert (x3 = x0 + a * (x1 - x0) / d + h * (y1 - y0) / d) as -> by congruence.
  assert (y3 = y0 + a * (y1 - y0) / d - h * (x1 - x0) / d) as -> by congruence.
  assert (x4 = x0 + a * (x1 - x0) / d - h * (y1 - y0) / d) as -> by congruence.
  assert (y4 = y0 + a * (y1 - y0) / d + h * (x1 - x0) / d) as -> by congruence.
  assert (0 <= h * d) as Hhd by (apply Rmult_le_pos; lra).
  split; [| split; [| split]].
  - replace ((x1 - x0) * (y0 + a * (y1 - y0) / d - h * (x1 - x0) / d - y0)
             - (y1 - y0) * (x0 + a * (x1 - x0) / d + h * (y1 - y0) / d - x0))
      with (- (h * (((x1 - x0) ^ 2 + (y1 - y0) ^ 2) / d))) by (field; lra).
    rewrite <- Hsq. replace (d ^ 2 / d) with d by (field; lra). lra.
  - replace ((x1 - x0) * (y0 + a * (y1 - y0) / d + h * (x1 - x0) / d - y0)
             - (y1 - y0) * (x0 + a * (x1 - x0) / d - h * (y1 - y0) / d - x0))
      with (h * (((x1 - x0) ^ 2 + (y1 - y0) ^ 2) / d)) by (field; lra).
    rewrite <- Hsq. replace (d ^ 2 / d) with d by (field; lra). lra.
  - field. lra.
  - field. lra.
Qed.

Lemma circle_intersections_sides_witness :
  (6 - 0) * (-4 - 0) - (0 - 0) * (3 - 0) <= 0 /\
  0 <= (6 - 0) * (4 - 0) - (0 - 0) * (3 - 0) /\
  (3 - 3) * (6 - 0) + (-4 - 4) * (0 - 0) = 0 /\
  (6 - 0) * ((-4 + 4) / 2 - 0) - (0 - 0) * ((3 + 3) / 2 - 0) = 0.
Proof.
  apply (circle_intersections_sides 0 0 5 6 0 5 3 (-4) 3 4).
  exact circle_intersections_crossing_example.
Defined.

(** X7. Over exact real arithmetic, against a circle of radius 0 the call
    is a point-on-circle test: it returns the centre of that circle (twice) when it lies on the first
    circle, of positive radius, and the absence signal otherwise.  This is
    the call [get_arm_angles] makes when the bending segment is the last
    one. *)
Theorem circle_intersections_zero_radius (x0 y0 r0 x1 y1 : R) :
  (dist x0 y0 x1 y1 = r0 /\ 0 < r0 ->
   circle_intersections x0 y0 r0 x1 y1 0 = Ret (Some (x1, y1, x1, y1))) /\
  (~ (dist x0 y0 x1 y1 = r0 /\ 0 < r0) ->
   circle_intersections x0 y0 r0 x1 y1 0 = Ret None).
Proof.
  pose proof (dist_nonneg x0 y0 x1 y1) as Hd.
  pose proof (dist_sqr x0 y0 x1 y1) as Hsq.
  split.
  - intros [E Hr].
    rewrite (circle_intersections_eval x0 y0 r0 x1 y1 0 r0 r0 0);
      try lra; [| rewrite <- Hsq, E; ring | field; lra].
    f_equal. f_equal. f_equal; [f_equal; [f_equal |] |]; field; lra.
  - intros Hn. apply circle_intersections_rejected. unfold rejected.
    rewrite Rminus_0_r, Rplus_0_r.
    destruct (Rgt_dec (dist x0 y0 x1 y1) r0) as [G | G]; [now left |].
    right.
    destruct (Rlt_dec (dist x0 y0 x1 y1) (Rabs r0)) as [L | L]; [now left |].
    right. unfold Rabs in L. destruct (Rcase_abs r0); [lra |].
    assert (dist x0 y0 x1 y1 = r0) as E by lra.
    split; [| lra]. destruct (Req_dec_T r0 0); [lra |].
    exfalso. apply Hn. split; lra.
Qed.

Lemma circle_intersections_zero_radius_witness :
  circle_intersections 0 0 1 1 0 0 = Ret (Some (1, 0, 1, 0)).
Proof.
  apply (proj1 (circle_intersections_zero_radius 0 0 1 1 0)).
  split; [apply dist_eq; lra | lra].
Defined.



(** * The mouse handler *)

Lemma py_int_error (v : R) : Rabs (IZR (py_int v) - v) < 1.
Proof.
  unfold py_int. destruct (Rle_dec 0 v) as [Hv | Hv].
  - destruct (base_Int_part v) as [Hle Hgt].
    apply Rabs_def1; lra.
  - destruct (base_Int_part (- v)) as [Hle Hgt].
    rewrite opp_IZR. apply Rabs_def1; lra.
Qed.



(** The two ways the handler ends: the solver reports absence and the lines
    are untouched, or it returns one angle per segment and the lines are
    placed along them. *)
Lemma on_mouse_motion_cases (width height : Z) (arm_lengths : list R)
    (lines : list Line) (x y : Z) :
  (get_arm_angles (IZR (x - width / 2)) (IZR (y - height / 2)) arm_lengths
     = Ret None /\
   on_mouse_motion width height arm_lengths lines x y = Ret lines) \/
  (exists angles : list R,
     get_arm_angles (IZR (x - width / 2)) (IZR (y - height / 2)) arm_lengths
       = Ret (Some angles) /\
     length angles = length arm_lengths /\
     on_mouse_motion width height arm_lengths lines x y =
       Ret (place_lines (width / 2) (height / 2) lines angles arm_lengths)).
Proof.
  unfold on_mouse_motion.
  set (tx := IZR (x - width / 2)). set (ty := IZR (y - height / 2)).
  destruct (Rgt_dec (sqrt (tx ^ 2 + ty ^ 2)) (py_sum arm_lengths)) as [G | G].
  { left. rewrite get_arm_angles_guarded by (now left). now split. }
  destruct (Req_dec_T (sqrt (tx ^ 2 + ty ^ 2)) 0) as [Z | Z].
  { left. rewrite get_arm_angles_guarded by (now right). now split. }
  destruct (get_arm_angles_total tx ty arm_lengths)
    as [[E _] | (angles & E & L & _)]; [lra | exact Z | |].
  - left. rewrite E. now split.
  - right. exists angles. rewrite E. now repeat split.
Qed.

(** X9. A mouse position at the window centre, or farther from it than the
    chain is long, leaves every line as it was. *)
Theorem on_mouse_motion_unchanged (width height : Z) (arm_lengths : list R)
    (lines : list Line) (x y : Z) :
  (x = (width / 2)%Z /\ y = (height / 2)%Z) \/
  py_sum arm_lengths <
    sqrt (IZR (x - width / 2) ^ 2 + IZR (y - height / 2) ^ 2) ->
  on_mouse_motion width height arm_lengths lines x y = Ret lines.
Proof.
  intros H. unfold on_mouse_motion.
  rewrite get_arm_angles_guarded; [reflexivity |].
  destruct H as [[-> ->] | H]; [right | left; exact H].
  rewrite !Z.sub_diag. apply sqrt_eq; lra.
Qed.

Lemma on_mouse_motion_unchanged_witness :
  on_mouse_motion 800 600 [200; 200; 150; 150; 200; 200]
    (initial_lines 800 600 [200; 200; 150; 150; 200; 200]) 400 300
  = Ret (initial_lines 800 600 [200; 200; 150; 150; 200; 200]).
Proof.
  apply (on_mouse_motion_unchanged 800 600 [200; 200; 150; 150; 200; 200]
           (initial_lines 800 600 [200; 200; 150; 150; 200; 200]) 400 300).
  left. split; reflexivity.
Defined.



(** ** How far the drawn chain ends from the mouse *)

Lemma walk_cons (p : R * R) (angle v : R) (angles t : list R) :
  walk p (angle :: angles) (v :: t) =
  walk (fst p + v * cos angle, snd p + v * sin angle) angles t.
Proof. reflexivity. Qed.

Lemma walk_translate (bx by_ : R) (angles t : list R) :
  walk (bx, by_) angles t =
  (bx + fst (walk (0, 0) angles t), by_ + snd (walk (0, 0) angles t)).
Proof.
  assert (forall (p : R * R),
            walk (fst p + bx, snd p + by_) angles t =
            (fst (walk p angles t) + bx, snd (walk p angles t) + by_)) as H.
  { revert t. induction angles as [| a angles IH]; intros t p.
    - reflexivity.
    - destruct t as [| v t]; [reflexivity |].
      rewrite !walk_cons. cbn [fst snd].
      replace (fst p + bx + v * cos a) with (fst p + v * cos a + bx) by ring.
      replace (snd p + by_ + v * sin a) with (snd p + v * sin a + by_) by ring.
      apply (IH t (fst p + v * cos a, snd p + v * sin a)). }
  specialize (H (0, 0)). cbn [fst snd] in H.
  rewrite !Rplus_0_l in H. rewrite H. f_equal; ring.
Qed.

(** The exact walk of a returned sequence, from any base point. *)
Lemma walk_solution (bx by_ x y : R) (t angles : list R) :
  Forall (fun v => 0 < v) t ->
  get_arm_angles x y t = Ret (Some angles) ->
  walk (bx, by_) angles t = (bx + x, by_ + y).
Proof.
  intros Hall Hret. rewrite walk_translate.
  destruct (get_arm_angles_success _ _ _ _ Hret)
    as (Hd & _ & a2 & x2 & y2 & k & N & [H0 H1] & ->).
  cbv zeta in N, H0, H1.
  rewrite (walk_sections _ _ _ _ _ _ N). cbv zeta. cbn [fst snd].
  set (d := sqrt (x ^ 2 + y ^ 2)) in *.
  set (a1 := py_sum (firstn k t)) in *.
  set (a3 := py_sum (skipn (S k) t)) in *.
  set (x1 := x * (- a1 / d)) in *. set (y1 := y * (- a1 / d)) in *.
  unfold on_circle in H0, H1. cbn [fst snd] in H0, H1.
  assert (0 < a2) as Ha2 by exact (Forall_pos_nth _ _ _ Hall N).
  assert (0 <= a3) as Ha3
    by (apply py_sum_nonneg; now apply Forall_pos_slices).
  assert ((- x) ^ 2 + (- y) ^ 2 = d ^ 2) as Hsq.
  { unfold d. rewrite pow2_sqrt by apply sum_squares_nonneg. ring. }
  destruct (atan2_polar_pos (- x) (- y) d Hd Hsq) as [C1 S1].
  destruct (atan2_polar (x2 - x1) (y2 - y1) a2 ltac:(lra) H0) as [C2 S2].
  assert ((x - x2) ^ 2 + (y - y2) ^ 2 = a3 ^ 2) as H1'
    by (rewrite <- H1; ring).
  destruct (atan2_polar (x - x2) (y - y2) a3 Ha3 H1') as [C3 S3].
  assert (d * (a1 * cos (atan2 (- y) (- x))) = d * x1) as E1.
  { unfold x1. rewrite <- Rmult_assoc, (Rmult_comm d a1), Rmult_assoc, C1.
    field. lra. }
  assert (d * (a1 * sin (atan2 (- y) (- x))) = d * y1) as E2.
  { unfold y1. rewrite <- Rmult_assoc, (Rmult_comm d a1), Rmult_assoc, S1.
    field. lra. }
  apply Rmult_eq_reg_l in E1; [| lra]. apply Rmult_eq_reg_l in E2; [| lra].
  rewrite E1, E2, C2, S2, C3, S3. f_equal; ring.
Qed.

(** Each drawn joint is off the exact joint by less than one pixel per
    segment walked, on each axis. *)
Lemma place_lines_error (lines : list Line) :
  forall (angles t : list R) (arm_x arm_y : Z) (px py_ : R)
         (i : nat) (line : Line),
    (i < length angles)%nat -> (i < length t)%nat ->
    nth_error (place_lines arm_x arm_y lines angles t) i = Some line ->
    Rabs (IZR (line_x2 line)
          - fst (walk (px, py_) (firstn (S i) angles) (firstn (S i) t)))
      < Rabs (IZR arm_x - px) + INR (S i) /\
    Rabs (IZR (line_y2 line)
          - snd (walk (px, py_) (firstn (S i) angles) (firstn (S i) t)))
      < Rabs (IZR arm_y - py_) + INR (S i).
Proof.
  induction lines as [| ln lines IH];
    intros angles t arm_x arm_y px py_ i line Ha Ht Hn.
  - destruct angles, t; destruct i; discriminate.
  - destruct angles as [| a angles]; [cbn in Ha; lia |].
    destruct t as [| v t]; [cbn in Ht; lia |].
    cbn [place_lines] in Hn.
    pose proof (py_int_error (v * cos a)) as Ex.
    pose proof (py_int_error (v * sin a)) as Ey.
    assert (Rabs (IZR (arm_x + py_int (v * cos a)) - (px + v * cos a))
            < Rabs (IZR arm_x - px) + 1) as Bx.
    { rewrite plus_IZR.
      replace (IZR arm_x + IZR (py_int (v * cos a)) - (px + v * cos a))
        with ((IZR arm_x - px) + (IZR (py_int (v * cos a)) - v * cos a))
        by ring.
      eapply Rle_lt_trans; [apply Rabs_triang | lra]. }
    assert (Rabs (IZR (arm_y + py_int (v * sin a)) - (py_ + v * sin a))
            < Rabs (IZR arm_y - py_) + 1) as By.
    { rewrite plus_IZR.
      replace (IZR arm_y + IZR (py_int (v * sin a)) - (py_ + v * sin a))
        with ((IZR arm_y - py_) + (IZR (py_int (v * sin a)) - v * sin a))
        by ring.
      eapply Rle_lt_trans; [apply Rabs_triang | lra]. }
    destruct i as [| i].
    + cbn [nth_error] in Hn. injection Hn as <-.
      cbn [firstn line_x2 line_y2]. rewrite walk_cons. cbn [fst snd].
      unfold walk. cbn [combine fold_left fst snd INR]. split; lra.
    + cbn [nth_error] in Hn.
      change (firstn (S (S i)) (a :: angles)) with (a :: firstn (S i) angles).
      change (firstn (S (S i)) (v :: t)) with (v :: firstn (S i) t).
      rewrite walk_cons. cbn [fst snd].
      destruct (IH angles t _ _ (px + v * cos a) (py_ + v * sin a) i line
                  ltac:(cbn in Ha; lia) ltac:(cbn in Ht; lia) Hn) as [Hx Hy].
      rewrite (S_INR (S i)). split; lra.
Qed.

(** X11. Over exact real arithmetic (exact angles, cosines, sines and
    products): when the solver succeeds on a chain of positive lengths drawn
    with one line per segment, the last line ends less than
    [len(arm_lengths)] pixels from the mouse position on each axis, the only
    error being the truncation of each segment to whole pixels.  (On floats
    a product that is exactly a whole number can be computed just below it
    and truncate one pixel short, so one more pixel can be lost.) *)
Theorem on_mouse_motion_tip_near_mouse (width height : Z)
    (arm_lengths : list R) (lines lines' : list Line) (x y : Z)
    (last : Line) :
  Forall (fun v => 0 < v) arm_lengths ->
  length lines = length arm_lengths ->
  get_arm_angles (IZR (x - width / 2)) (IZR (y - height / 2)) arm_lengths
    <> Ret None ->
  on_mouse_motion width height arm_lengths lines x y = Ret lines' ->
  nth_error lines' (length arm_lengths - 1) = Some last ->
  (Z.abs (line_x2 last - x) < Z.of_nat (length arm_lengths))%Z /\
  (Z.abs (line_y2 last - y) < Z.of_nat (length arm_lengths))%Z.
Proof.
  intros Hall Hlen Hsome Hrun Hlast.
  destruct (on_mouse_motion_cases width height arm_lengths lines x y)
    as [[E _] | (angles & E & L & Eq)]; [contradiction |].
  rewrite Eq in Hrun. injection Hrun as <-.
  assert (0 < length arm_lengths)%nat as Hpos.
  { destruct arm_lengths; [| cbn; lia].
    cbn in Hlen. destruct lines; [| discriminate]. destruct angles; discriminate. }
  set (n := length arm_lengths) in *.
  destruct (place_lines_error lines angles arm_lengths
              (width / 2)%Z (height / 2)%Z
              (IZR (width / 2)) (IZR (height / 2)) (n - 1) last
              ltac:(lia) ltac:(fold n; lia) Hlast) as [Hx Hy].
  replace (S (n - 1)) with n in Hx, Hy by lia.
  rewrite (firstn_all2 angles) in Hx, Hy by lia.
  rewrite (firstn_all2 arm_lengths) in Hx, Hy by (fold n; lia).
  rewrite (walk_solution _ _ _ _ _ _ Hall E) in Hx, Hy.
  cbn [fst snd] in Hx, Hy.
  rewrite !Rminus_diag, Rabs_R0, Rplus_0_l in Hx, Hy.
  rewrite <- plus_IZR, <- minus_IZR in Hx, Hy.
  rewrite <- abs_IZR, INR_IZR_INZ in Hx, Hy.
  apply lt_IZR in Hx, Hy.
  split.
  - replace (line_x2 last - x)%Z
      with (line_x2 last - (width / 2 + (x - width / 2)))%Z by lia.
    exact Hx.
  - replace (line_y2 last - y)%Z
      with (line_y2 last - (height / 2 + (y - height / 2)))%Z by lia.
    exact Hy.
Qed.

Lemma on_mouse_motion_tip_near_mouse_witness :
  (Z.abs (line_x2
            (mkLine (400 + py_int (100 * cos 0))
               (300 + py_int (100 * sin 0))
               (400 + py_int (100 * cos 0) + py_int (100 * cos 0))
               (300 + py_int (100 * sin 0) + py_int (100 * sin 0))) - 600)
   < Z.of_nat (length [100%R; 100%R]))%Z /\
  (Z.abs (line_y2
            (mkLine (400 + py_int (100 * cos 0))
               (300 + py_int (100 * sin 0))
               (400 + py_int (100 * cos 0) + py_int (100 * cos 0))
               (300 + py_int (100 * sin 0) + py_int (100 * sin 0))) - 300)
   < Z.of_nat (length [100%R; 100%R]))%Z.
Proof.
  assert (get_arm_angles (IZR (600 - 800 / 2)) (IZR (300 - 600 / 2))
            [100; 100] = Ret (Some [0; 0])) as E.
  { change (IZR (600 - 800 / 2)) with 200.
    change (IZR (300 - 600 / 2)) with 0.
    exact get_arm_angles_scenario_C. }
  apply (on_mouse_motion_tip_near_mouse 800 600 [100; 100]
           (initial_lines 800 600 [100; 100])
           (place_lines 400 300 (initial_lines 800 600 [100; 100])
              [0; 0] [100; 100])
           600 300
           (mkLine (400 + py_int (100 * cos 0))
              (300 + py_int (100 * sin 0))
              (400 + py_int (100 * cos 0) + py_int (100 * cos 0))
              (300 + py_int (100 * sin 0) + py_int (100 * sin 0)))).
  - repeat constructor; lra.
  - reflexivity.
  - rewrite E. discriminate.
  - unfold on_mouse_motion. rewrite E. reflexivity.
  - reflexivity.
Defined.

(** ** The lines [main] starts with *)

Lemma py_int_IZR (z : Z) : py_int (IZR z) = z.
Proof.
  unfold py_int. destruct (Rle_dec 0 (IZR z)) as [Hz | Hz].
  - symmetry. apply Int_part_spec. lra.
  - rewrite <- opp_IZR.
    assert ((- z)%Z = Int_part (IZR (- z))) as <-
      by (apply Int_part_spec; lra).
    lia.
Qed.

(** X12. [main] creates one line per segment; the line of a segment whose
    length is the integer [z] starts at the window centre and ends [z]
    pixels to its right, so at start-up all the lines lie on one horizontal
    ray and are not yet chained end to end. *)
Theorem initial_lines_horizontal (width height : Z) (arm_lengths : list R)
    (i : nat) (z : Z) :
  nth_error arm_lengths i = Some (IZR z) ->
  length (initial_lines width height arm_lengths) = length arm_lengths /\
  nth_error (initial_lines width height arm_lengths) i =
    Some (mkLine (width / 2) (height / 2) (width / 2 + z) (height / 2)).
Proof.
  intros Hi. unfold initial_lines. split; [apply length_map |].
  rewrite nth_error_map, Hi. cbn [option_map].
  rewrite cos_0, sin_0, Rmult_1_r, Rmult_0_r.
  rewrite py_int_IZR. change 0 with (IZR 0). rewrite py_int_IZR.
  now rewrite Z.add_0_r.
Qed.

Lemma initial_lines_horizontal_witness :
  length (initial_lines 800 600 [200; 200; 150; 150; 200; 200]) =
    length [200%R; 200%R; 150%R; 150%R; 200%R; 200%R] /\
  nth_error (initial_lines 800 600 [200; 200; 150; 150; 200; 200]) 2 =
    Some (mkLine (800 / 2) (600 / 2) (800 / 2 + 150) (600 / 2)).
Proof.
  apply (initial_lines_horizontal 800 600 [200; 200; 150; 150; 200; 200]
           2 150).
  reflexivity.
Defined.


(** * What the program does on floats

    Evaluations of the IEEE binary64 embedding.  At a tangency, rounding
    can make the chord offset [a] exceed [r0]; then [r0 ** 2 - a ** 2] is
    negative, no guard has caught it, and [math.sqrt] raises [ValueError].
    The four evaluations below are instances of that one defect. *)
Module FloatFacts.
Import PrimFloat.
Local Open Scope float_scope.

(** C4. The circles of radius 0.1 centred at (0, 0) and (0.2, 0) touch: the
    computed distance is 0.2 and none of the three guards holds, yet the
    call does not return two points: it raises [ValueError]. *)
Theorem circle_intersections_tangent_raises :
  (Float64.f0_1 + Float64.f0_1
     <? PrimFloat.sqrt ((Float64.f0_2 - 0) * (Float64.f0_2 - 0)
                        + (0 - 0) * (0 - 0))) = false /\
  (PrimFloat.sqrt ((Float64.f0_2 - 0) * (Float64.f0_2 - 0)
                   + (0 - 0) * (0 - 0))
     <? abs (Float64.f0_1 - Float64.f0_1)) = false /\
  (PrimFloat.sqrt ((Float64.f0_2 - 0) * (Float64.f0_2 - 0)
                   + (0 - 0) * (0 - 0)) =? 0) = false /\
  Float64.circle_intersections 0 0 Float64.f0_1 Float64.f0_2 0 Float64.f0_1
    = Raise ValueError.
Proof. repeat split; vm_compute; reflexivity. Qed.

(** C2. One segment of length 0.05 and the target (0.05, 0): the distance
    neither exceeds the sum nor is zero, the loop stops at index 0, and the
    circle-intersection step does not return absence; but the call returns
    no angle sequence: the step, and with it the call, raises
    [ValueError], whatever [atan2] computes. *)
Theorem get_arm_angles_raises_past_guards :
  (Float64.py_sum [Float64.f0_05]
     <? PrimFloat.sqrt (Float64.f0_05 * Float64.f0_05 + 0 * 0)) = false /\
  (PrimFloat.sqrt (Float64.f0_05 * Float64.f0_05 + 0 * 0) =? 0) = false /\
  Float64.partition_loop 2
    (PrimFloat.sqrt (Float64.f0_05 * Float64.f0_05 + 0 * 0))
    [Float64.f0_05] 0 (Float64.py_sum (skipn 1 [Float64.f0_05])) 0
    = Ret (0, 0, 0%nat) /\
  Float64.circle_intersections
    (Float64.f0_05
     * (- 0 / PrimFloat.sqrt (Float64.f0_05 * Float64.f0_05 + 0 * 0)))
    (0 * (- 0 / PrimFloat.sqrt (Float64.f0_05 * Float64.f0_05 + 0 * 0)))
    Float64.f0_05 Float64.f0_05 0 0
    = Raise ValueError /\
  (fun atan2 : float -> float -> float =>
     Float64.get_arm_angles atan2 Float64.f0_05 0 [Float64.f0_05])
  = (fun _ => Raise ValueError).
Proof. repeat split; vm_compute; reflexivity. Qed.

(** C3. One segment of length 0.1 and the target (0, 0.1): the call returns
    neither the absence signal nor a list of one angle; its outcome is the
    exception [ValueError], whatever [atan2] computes. *)
Theorem get_arm_angles_neither_none_nor_list :
  (fun atan2 : float -> float -> float =>
     Float64.get_arm_angles atan2 0 Float64.f0_1 [Float64.f0_1])
  = (fun _ => Raise ValueError).
Proof. vm_compute. reflexivity. Qed.

(** C5. One segment of length 0.1 and the target (0.1, 0): the computed
    distance equals the sum of the lengths exactly, and the call raises
    [ValueError] instead of returning the straight chain.  Scenario C
    itself (lengths (100, 100), target (200, 0)) does return
    [[atan2(0, 100), atan2(0, 100)]]. *)
Theorem get_arm_angles_full_reach_raises :
  (PrimFloat.sqrt (Float64.f0_1 * Float64.f0_1 + 0 * 0)
     =? Float64.py_sum [Float64.f0_1]) = true /\
  (fun atan2 : float -> float -> float =>
     Float64.get_arm_angles atan2 Float64.f0_1 0 [Float64.f0_1])
  = (fun _ => Raise ValueError) /\
  (fun atan2 : float -> float -> float =>
     Float64.get_arm_angles atan2 200 0 [100; 100])
  = (fun atan2 => Ret (Some [atan2 0 100; atan2 0 100])).
Proof. repeat split; vm_compute; reflexivity. Qed.

Lemma py_index_bound (t : list float) (k : nat) (v : float) :
  Float64.py_index t k = Ret v -> (k < length t)%nat.
Proof.
  unfold Float64.py_index. intros H. apply nth_error_Some.
  destruct (nth_error t k); [discriminate | discriminate].
Qed.

(** X14. On floats too, whenever [get_arm_angles] returns a list, the list
    has exactly one angle per segment length, whatever [atan2] computes. *)
Theorem returned_list_length (atan2 : float -> float -> float)
    (x y : float) (arm_lengths angles : list float) :
  Float64.get_arm_angles atan2 x y arm_lengths = Ret (Some angles) ->
  length angles = length arm_lengths.
Proof.
  unfold Float64.get_arm_angles. intros H.
  destruct (Float64.py_square x) as [x_2 | |]; cbn [bind] in H;
    try discriminate.
  destruct (Float64.py_square y) as [y_2 | |]; cbn [bind] in H;
    try discriminate.
  destruct (Float64.py_sqrt (x_2 + y_2)) as [d | |]; cbn [bind] in H;
    try discriminate.
  destruct (Float64.py_sum arm_lengths <? d); [discriminate |].
  destruct (d =? 0); [discriminate |].
  destruct (Float64.partition_loop _ _ _ _ _ _) as [[[a1 a3] k] | |];
    cbn [bind] in H; try discriminate.
  destruct (Float64.py_index arm_lengths k) as [a2 | |] eqn:Hk;
    cbn [bind] in H; try discriminate.
  destruct (Float64.py_div (- a1) d) as [sf | |]; cbn [bind] in H;
    try discriminate.
  destruct (Float64.circle_intersections _ _ _ _ _ _)
    as [[[[[x2 y2] x4] y4] |] | |]; cbn [bind] in H; try discriminate.
  injection H as <-.
  apply angles_length. exact (py_index_bound _ _ _ Hk).
Qed.

Lemma returned_list_length_witness :
  length [0; 0] = length [100; 100].
Proof.
  apply (returned_list_length (fun _ _ => 0) 200 0 [100; 100] [0; 0]).
  vm_compute. reflexivity.
Defined.
End FloatFacts.
